(** * Continuation-token pagination of [repository/record_repository.go]

    A shallow embedding of the cursor codec ([encodeContinuationToken],
    [decodeContinuationToken]) and of the paginator ([GetPaginated]) of the
    repository package, together with models of the Go library functions they
    call ([encoding/base64], [strings.Split], [strconv.ParseInt], [fmt]'s
    [%d] verb, [time.Unix]) and of the two SQL statements the paginator sends
    to the store.  The rest of the repository ([CreateTable], [Insert],
    [GetAll]), the handlers of [handler/record_handler.go] and the startup
    of [main.go] follow, on a model of the [resource_context] table. *)

From Stdlib Require Import Ascii String.
From Stdlib Require Import ZArith List Bool Lia Arith.
From Stdlib Require Import Sorting.Sorted Sorting.Permutation.
Import ListNotations.

Local Open Scope Z_scope.

(** ** Go values *)

(** A Go [string] is an immutable sequence of bytes. *)
Definition gostring := list ascii.

(** String literals of the source. *)
Definition str (s : String.string) : gostring := list_ascii_of_string s.

(** [uint(b)] for a byte [b]. *)
Definition uint (b : ascii) : Z := Z.of_N (N_of_ascii b).

(** [byte(v)]: conversion to a byte keeps the low eight bits. *)
Definition byte (v : Z) : ascii := ascii_of_N (Z.to_N (Z.land v 255)).

(** Go's [(value, error)] returns. *)
Inductive result (E A : Type) : Type :=
| Ok (a : A)
| Err (e : E).
Arguments Ok {E A} a.
Arguments Err {E A} e.

Definition bind {E A B} (r : result E A) (k : A -> result E B) : result E B :=
  match r with
  | Ok a => k a
  | Err e => Err e
  end.

(** ** [encoding/base64]: the [URLEncoding] value

    [URLEncoding] is the padded URL-safe alphabet of RFC 4648, decoded
    leniently: carriage returns and line feeds are skipped and the unused
    trailing bits of the last quantum are not checked. *)
Module Base64.

Definition encodeURL : gostring :=
  str "ABCDEFGHIJKLMNOPQRSTUVWXYZabcdefghijklmnopqrstuvwxyz0123456789-_".

Definition padChar : ascii := "="%char.

(** [enc.encode[i]] *)
Definition encode (i : Z) : ascii := nth (Z.to_nat i) encodeURL "000"%char.

Fixpoint index_of (c : ascii) (l : list ascii) (i : Z) : option Z :=
  match l with
  | [] => None
  | x :: l' => if Ascii.eqb x c then Some i else index_of c l' (i + 1)
  end.

(** [enc.decodeMap[c]]; [None] stands for the 0xff entries. *)
Definition decodeMap (c : ascii) : option Z := index_of c encodeURL 0.

(** [Encoding.EncodeToString] *)
Fixpoint EncodeToString (src : list ascii) : gostring :=
  match src with
  | [] => []
  | [a] =>
      let val := Z.shiftl (uint a) 16 in
      [encode (Z.land (Z.shiftr val 18) 63);
       encode (Z.land (Z.shiftr val 12) 63);
       padChar; padChar]
  | [a; b] =>
      let val := Z.lor (Z.shiftl (uint a) 16) (Z.shiftl (uint b) 8) in
      [encode (Z.land (Z.shiftr val 18) 63);
       encode (Z.land (Z.shiftr val 12) 63);
       encode (Z.land (Z.shiftr val 6) 63);
       padChar]
  | a :: b :: c :: rest =>
      let val := Z.lor (Z.lor (Z.shiftl (uint a) 16) (Z.shiftl (uint b) 8))
                       (uint c) in
      encode (Z.land (Z.shiftr val 18) 63)
      :: encode (Z.land (Z.shiftr val 12) 63)
      :: encode (Z.land (Z.shiftr val 6) 63)
      :: encode (Z.land val 63)
      :: EncodeToString rest
  end.

(** The error of the decoder (the byte offset it carries is left out). *)
Inductive CorruptInputError : Type := CorruptInput.

Definition isNewline (c : ascii) : bool :=
  Ascii.eqb c "010"%char || Ascii.eqb c "013"%char.

Fixpoint skipNewlines (src : list ascii) : list ascii :=
  match src with
  | c :: rest => if isNewline c then skipNewlines rest else src
  | [] => []
  end.

(** The tail of [decodeQuantum]: the [dlen] six-bit values read so far
    are packed into [dlen - 1] bytes. *)
Definition assemble (dbuf : list Z) : list ascii :=
  let d k := nth k dbuf 0 in
  let val := Z.lor (Z.lor (Z.lor (Z.shiftl (d 0%nat) 18) (Z.shiftl (d 1%nat) 12))
                          (Z.shiftl (d 2%nat) 6)) (d 3%nat) in
  firstn (length dbuf - 1) [byte (Z.shiftr val 16); byte (Z.shiftr val 8); byte val].

(** After the padding of a final quantum only newlines may follow. *)
Definition endOfInput (rest : list ascii) (out : list ascii)
  : result CorruptInputError (list ascii) :=
  match skipNewlines rest with
  | [] => Ok out
  | _ :: _ => Err CorruptInput
  end.

(** [Encoding.Decode] as a loop over the input; [dbuf] holds the six-bit
    values of the quantum being read ([j = length dbuf]). *)
Fixpoint decodeLoop (src : list ascii) (dbuf : list Z)
  : result CorruptInputError (list ascii) :=
  match src with
  | [] =>
      match dbuf with
      | [] => Ok []
      | _ :: _ => Err CorruptInput
      end
  | c :: rest =>
      match decodeMap c with
      | Some out =>
          let dbuf' := dbuf ++ [out] in
          if (length dbuf' =? 4)%nat
          then bind (decodeLoop rest []) (fun tl => Ok (assemble dbuf' ++ tl))
          else decodeLoop rest dbuf'
      | None =>
          if isNewline c then decodeLoop rest dbuf
          else if Ascii.eqb c padChar then
            match length dbuf with
            | 0%nat | 1%nat => Err CorruptInput
            | 2%nat =>
                match skipNewlines rest with
                | [] => Err CorruptInput
                | c2 :: rest2 =>
                    if Ascii.eqb c2 padChar
                    then endOfInput rest2 (assemble dbuf)
                    else Err CorruptInput
                end
            | _ => endOfInput rest (assemble dbuf)
            end
          else Err CorruptInput
      end
  end.

(** [Encoding.DecodeString] *)
Definition DecodeString (s : gostring) : result CorruptInputError (list ascii) :=
  decodeLoop s [].

(** The quantum of three bytes [a b c] as a 24-bit value. *)
Definition quantum (a b c : ascii) : Z := uint a * 65536 + uint b * 256 + uint c.

(** The characters a URL carries unescaped, and the padding. *)
Definition urlSafe (c : ascii) : bool :=
  let n := uint c in
  ((65 <=? n) && (n <=? 90))        (* A-Z *)
  || ((97 <=? n) && (n <=? 122))    (* a-z *)
  || ((48 <=? n) && (n <=? 57))     (* 0-9 *)
  || (n =? 45) || (n =? 95)         (* - _ *)
  || (n =? 61).                     (* = *)

(** The bytes the decoder lets through. *)
Definition accepted (c : ascii) : Prop := urlSafe c = true \/ isNewline c = true.

End Base64.

(** ** Machine integers *)

(** The value of a 64-bit two's-complement word ([int], [int64]). *)
Definition int64 (z : Z) : Z := (z + 2 ^ 63) mod 2 ^ 64 - 2 ^ 63.

(** The value of a 64-bit unsigned word ([uint64]). *)
Definition uint64 (z : Z) : Z := z mod 2 ^ 64.

Definition minInt64 : Z := - 2 ^ 63.
Definition maxInt64 : Z := 2 ^ 63 - 1.

Definition in_int64 (z : Z) : Prop := minInt64 <= z <= maxInt64.

(** ** [strconv] and the [%d] verb of [fmt] *)
Module Strconv.

Inductive NumError : Type := ErrSyntax | ErrRange.

(** The digit of a byte in base 10; [None] is the syntax error of
    [ParseUint] (a byte that is no digit, or a letter, whose value is
    not below the base). *)
Definition digit (c : ascii) : option Z :=
  if (48 <=? uint c) && (uint c <=? 57) then Some (uint c - 48) else None.

Definition maxVal : Z := 2 ^ 64 - 1.

(** [cutoff = maxUint64/10 + 1], the least [n] with [n*10] out of range. *)
Definition cutoff : Z := maxVal / 10 + 1.

(** The loop of [ParseUint(s, 10, 64)] over the bytes of [s]. *)
Fixpoint parseUintLoop (s : list ascii) (n : Z) : result NumError Z :=
  match s with
  | [] => Ok n
  | c :: rest =>
      match digit c with
      | None => Err ErrSyntax
      | Some d =>
          if n >=? cutoff then Err ErrRange
          else
            let n := uint64 (n * 10) in
            let n1 := uint64 (n + d) in
            if (n1 <? n) || (n1 >? maxVal) then Err ErrRange
            else parseUintLoop rest n1
      end
  end.

(** [ParseUint(s, 10, 64)] *)
Definition ParseUint (s : gostring) : result NumError Z :=
  match s with
  | [] => Err ErrSyntax
  | _ :: _ => parseUintLoop s 0
  end.

(** [ParseInt(s, 10, 64)] *)
Definition ParseInt (s : gostring) : result NumError Z :=
  match s with
  | [] => Err ErrSyntax
  | c :: rest =>
      let neg := Ascii.eqb c "-"%char in
      let s' := if Ascii.eqb c "+"%char || Ascii.eqb c "-"%char then rest else s in
      match ParseUint s' with
      | Err ErrSyntax => Err ErrSyntax
      | r =>
          (* a range error of ParseUint comes with the value maxVal *)
          let un := match r with Ok u => u | Err _ => maxVal end in
          let cutoff := 2 ^ 63 in
          if negb neg && (un >=? cutoff) then Err ErrRange
          else if neg && (un >? cutoff) then Err ErrRange
          else
            let n := int64 un in
            Ok (if neg then int64 (- n) else n)
      end
  end.

Definition digitChar (d : Z) : ascii := byte (48 + d).

(** The base-10 loop of [fmt]'s integer formatting: digits are produced
    from the least significant one while [u >= 10].  A 64-bit value has at
    most 20 digits, which bounds the loop. *)
Fixpoint fmtDigits (fuel : nat) (u : Z) (buf : list ascii) : list ascii :=
  match fuel with
  | O => buf
  | S fuel' =>
      if u >=? 10
      then fmtDigits fuel' (u / 10) (digitChar (u - (u / 10) * 10) :: buf)
      else digitChar u :: buf
  end.

(** [%d] applied to an [int64]. *)
Definition fmtInt64 (v : Z) : gostring :=
  let negative := v <? 0 in
  let u := if negative then uint64 (- v) else uint64 v in
  let digits := fmtDigits 20 u [] in
  if negative then "-"%char :: digits else digits.

(** A decimal digit, and the value of a digit string read from the left. *)
Definition isDigit (c : ascii) : Prop := 48 <= uint c <= 57.

Definition decimalStep (acc : Z) (c : ascii) : Z := acc * 10 + (uint c - 48).

Definition decimalFrom (n : Z) (ds : list ascii) : Z := fold_left decimalStep ds n.

Definition decimalValue (ds : list ascii) : Z := decimalFrom 0 ds.

(** A base-10 integer literal and its value: an optional sign, then one
    digit or more. *)
Inductive IntLiteral : gostring -> Z -> Prop :=
| lit_plain : forall ds,
    ds <> [] -> Forall isDigit ds -> IntLiteral ds (decimalValue ds)
| lit_plus : forall ds,
    ds <> [] -> Forall isDigit ds -> IntLiteral ("+"%char :: ds) (decimalValue ds)
| lit_minus : forall ds,
    ds <> [] -> Forall isDigit ds -> IntLiteral ("-"%char :: ds) (- decimalValue ds).

End Strconv.

(** ** [strings.Split] with a one-byte separator *)
Fixpoint Split (s : gostring) (sep : ascii) : list gostring :=
  match s with
  | [] => [[]]
  | c :: rest =>
      if Ascii.eqb c sep then [] :: Split rest sep
      else
        match Split rest sep with
        | field :: fields => (c :: field) :: fields
        | [] => [[c]]
        end
  end.

(** ** [time.Time] *)

(** An instant: whole seconds since the Unix epoch and the nanoseconds
    within the second, in [0, 1e9). *)
Record Time : Type := mkTime { sec : Z; nsec : Z }.

(** The method [t.Unix()]. *)
Definition Time_Unix (t : Time) : Z := sec t.

(** The function [time.Unix(sec, nsec)]; Go's [/] truncates toward zero. *)
Definition time_Unix (s n : Z) : Time :=
  if (n <? 0) || (n >=? 1000000000) then
    let q := Z.quot n 1000000000 in
    let s := int64 (s + q) in
    let n := n - q * 1000000000 in
    if n <? 0 then mkTime (int64 (s - 1)) (n + 1000000000) else mkTime s n
  else mkTime s n.

(** The zero value [time.Time{}]. *)
Definition zeroTime : Time := mkTime (-62135596800) 0.

Definition valid_time (t : Time) : Prop :=
  in_int64 (sec t) /\ 0 <= nsec t < 1000000000.

(** A time without a sub-second part, as a [timestamp] column holds it. *)
Definition whole_second (t : Time) : Prop := nsec t = 0.

(** ** The repository package *)

Record Record_ : Type := mkRecord {
  ResourceID : gostring;
  ResourceType : gostring;
  Context : option gostring;
  CreatedAt : Time;
  UpdatedAt : Time
}.

Record PaginatedResult : Type := mkPaginatedResult {
  Records : list Record_;
  NextContinuationToken : option gostring
}.

Definition DefaultPageSize : Z := 5.

(** An error of [database/sql], opaque to the repository. *)
Inductive sqlError : Type := SqlError (msg : gostring).

(** The errors [decodeContinuationToken] and [GetPaginated] return, one
    constructor per message; [%v] is the wrapped error. *)
Inductive Error : Type :=
| InvalidToken (e : Base64.CorruptInputError) (* "invalid continuation token: %v" *)
| InvalidTokenFormat                          (* "invalid continuation token format" *)
| InvalidTokenTimestamp (e : Strconv.NumError) (* "invalid timestamp in token: %v" *)
| StoreQueryFailed (e : sqlError).

Definition pipe : ascii := "|"%char.

(** [fmt.Sprintf("%s|%s|%d", ...)] followed by [base64.URLEncoding.EncodeToString]. *)
Definition encodeContinuationToken
  (lastResourceType lastResourceID : gostring) (lastCreatedAt : Time) : gostring :=
  let tokenData :=
    lastResourceType ++ [pipe] ++ lastResourceID ++ [pipe]
      ++ Strconv.fmtInt64 (Time_Unix lastCreatedAt) in
  Base64.EncodeToString tokenData.

Definition decodeContinuationToken (token : gostring)
  : result Error (gostring * gostring * Time) :=
  match Base64.DecodeString token with
  | Err err => Err (InvalidToken err)
  | Ok decoded =>
      match Split decoded pipe with
      | [resourceType; resourceID; part2] =>
          match Strconv.ParseInt part2 with
          | Err err => Err (InvalidTokenTimestamp err)
          | Ok timestamp => Ok (resourceType, resourceID, time_Unix timestamp 0)
          end
      | _ => Err InvalidTokenFormat
      end
  end.

(** The two statements [GetPaginated] prepares, with the arguments bound to
    their placeholders in order.

    [SelectFirstPage limit]:
      SELECT ... FROM resource_context
      ORDER BY created_at DESC, resource_type DESC, resource_id DESC LIMIT ?

    [SelectSeek a1 a2 a3 a4 a5 a6 limit]:
      SELECT ... FROM resource_context
      WHERE (created_at < ? OR (created_at = ? AND resource_type < ?)
             OR (created_at = ? AND resource_type = ? AND resource_id < ?))
      ORDER BY created_at DESC, resource_type DESC, resource_id DESC LIMIT ? *)
Inductive Query : Type :=
| SelectFirstPage (limit : Z)
| SelectSeek (a1 a2 : Time) (a3 : gostring) (a4 : Time) (a5 a6 : gostring) (limit : Z).

(** The store as [GetPaginated] sees it: a query is answered by the scanned
    rows or by an error of [db.Query] or [rows.Scan]. *)
Definition DB : Type := Query -> result sqlError (list Record_).

(** The zero [Record], read by an index expression only out of range. *)
Definition zeroRecord : Record_ := mkRecord [] [] None zeroTime zeroTime.

(** Lines 178-189: the page and its token from the scanned rows. *)
Definition pageOf (records : list Record_) (pageSize : Z) : PaginatedResult :=
  if Z.of_nat (length records) >? pageSize then
    let lastRecord := nth (Z.to_nat (pageSize - 1)) records zeroRecord in
    let token := encodeContinuationToken
                   (ResourceType lastRecord) (ResourceID lastRecord) (CreatedAt lastRecord) in
    mkPaginatedResult (firstn (Z.to_nat pageSize) records) (Some token)
  else mkPaginatedResult records None.

(** [GetPaginated], returning the queries sent to the store next to the
    Go result; [Err e] is the return [nil, e]. *)
Definition GetPaginated (db : DB) (continuationToken : gostring) (pageSize : Z)
  : list Query * result Error PaginatedResult :=
  let pageSize := if pageSize <=? 0 then DefaultPageSize else pageSize in
  let prepared :=
    match continuationToken with
    | [] => Ok (SelectFirstPage (int64 (pageSize + 1)))
    | _ :: _ =>
        match decodeContinuationToken continuationToken with
        | Err err => Err err
        | Ok (lastResourceType, lastResourceID, lastCreatedAt) =>
            Ok (SelectSeek lastCreatedAt lastCreatedAt lastResourceType
                           lastCreatedAt lastResourceType lastResourceID
                           (int64 (pageSize + 1)))
        end
    end in
  match prepared with
  | Err err => ([], Err err)
  | Ok query =>
      match db query with
      | Err err => ([query], Err (StoreQueryFailed err))
      | Ok records => ([query], Ok (pageOf records pageSize))
      end
  end.

(** ** The store: [resource_context] under the two statements *)

(** Comparison of [timestamp] values. *)
Definition time_ltb (a b : Time) : bool :=
  (sec a <? sec b) || ((sec a =? sec b) && (nsec a <? nsec b)).

Definition time_eqb (a b : Time) : bool :=
  (sec a =? sec b) && (nsec a =? nsec b).

(** Comparison of [varchar] values, byte by byte (a binary collation). *)
Fixpoint str_ltb (a b : gostring) : bool :=
  match a, b with
  | _, [] => false
  | [], _ :: _ => true
  | x :: a', y :: b' =>
      (uint x <? uint y) || ((uint x =? uint y) && str_ltb a' b')
  end.

Fixpoint str_eqb (a b : gostring) : bool :=
  match a, b with
  | [], [] => true
  | x :: a', y :: b' => Ascii.eqb x y && str_eqb a' b'
  | _, _ => false
  end.

(** The three disjuncts of the WHERE clause of [SelectSeek]. *)
Definition seek1 (r : Record_) (a1 : Time) : bool :=
  time_ltb (CreatedAt r) a1.

Definition seek2 (r : Record_) (a2 : Time) (a3 : gostring) : bool :=
  time_eqb (CreatedAt r) a2 && str_ltb (ResourceType r) a3.

Definition seek3 (r : Record_) (a4 : Time) (a5 a6 : gostring) : bool :=
  time_eqb (CreatedAt r) a4 && str_eqb (ResourceType r) a5
  && str_ltb (ResourceID r) a6.

Definition whereSeek (a1 a2 : Time) (a3 : gostring) (a4 : Time) (a5 a6 : gostring)
  (r : Record_) : bool :=
  seek1 r a1 || seek2 r a2 a3 || seek3 r a4 a5 a6.

(** [ORDER BY created_at DESC, resource_type DESC, resource_id DESC]:
    [a] is placed before [b]. *)
Definition orderBefore (a b : Record_) : bool :=
  time_ltb (CreatedAt b) (CreatedAt a)
  || (time_eqb (CreatedAt b) (CreatedAt a)
      && (str_ltb (ResourceType b) (ResourceType a)
          || (str_eqb (ResourceType b) (ResourceType a)
              && str_ltb (ResourceID b) (ResourceID a)))).

Fixpoint insertDesc (r : Record_) (l : list Record_) : list Record_ :=
  match l with
  | [] => [r]
  | x :: l' => if orderBefore x r then x :: insertDesc r l' else r :: l
  end.

Definition orderByDesc (l : list Record_) : list Record_ :=
  fold_right insertDesc [] l.

(** [LIMIT ?]: a negative count is rejected by the server. *)
Definition limitRows (limit : Z) (l : list Record_) : result sqlError (list Record_) :=
  if limit <? 0 then Err (SqlError (str "Incorrect arguments to LIMIT"))
  else Ok (firstn (Z.to_nat limit) l).

(** The answers of a store holding the rows [table]. *)
Definition tableDB (table : list Record_) : DB :=
  fun q =>
    match q with
    | SelectFirstPage limit => limitRows limit (orderByDesc table)
    | SelectSeek a1 a2 a3 a4 a5 a6 limit =>
        limitRows limit (orderByDesc (filter (whereSeek a1 a2 a3 a4 a5 a6) table))
    end.

(** The caller's loop: start from [token], resubmit each returned token,
    stop at the page without one.  [None] on an error or when [fuel] pages
    did not reach the end. *)
Fixpoint traverse (fuel : nat) (db : DB) (token : gostring) (pageSize : Z)
  : option (list Record_) :=
  match fuel with
  | O => None
  | S fuel' =>
      match snd (GetPaginated db token pageSize) with
      | Err _ => None
      | Ok page =>
          match NextContinuationToken page with
          | None => Some (Records page)
          | Some next =>
              match traverse fuel' db next pageSize with
              | Some more => Some (Records page ++ more)
              | None => None
              end
          end
      end
  end.

(** ** The order of the specification *)

Definition time_lt (a b : Time) : Prop :=
  sec a < sec b \/ (sec a = sec b /\ nsec a < nsec b).

(** Lexicographic order of byte strings. *)
Inductive str_lt : gostring -> gostring -> Prop :=
| str_lt_nil : forall y b, str_lt [] (y :: b)
| str_lt_head : forall x a y b, uint x < uint y -> str_lt (x :: a) (y :: b)
| str_lt_tail : forall x a b, str_lt a b -> str_lt (x :: a) (x :: b).

(** The ordering 3-tuple of a row: (created_at, resource_type, resource_id). *)
Definition Key : Type := (Time * gostring * gostring)%type.

Definition keyOf (r : Record_) : Key := (CreatedAt r, ResourceType r, ResourceID r).

(** Lexicographic order of 3-tuples, ties broken left to right. *)
Definition key_lt (k c : Key) : Prop :=
  let '(t, ty, id) := k in
  let '(ct, cty, cid) := c in
  time_lt t ct \/ (t = ct /\ (str_lt ty cty \/ (ty = cty /\ str_lt id cid))).

(** [a] stands before [b] in the descending order of the 3-tuple. *)
Definition before (a b : Record_) : Prop := key_lt (keyOf b) (keyOf a).

(** A row whose cursor the wire format carries unchanged: keys without the
    delimiter and a creation time in whole seconds. *)
Definition cursorSafe (r : Record_) : Prop :=
  ~ In pipe (ResourceType r) /\ ~ In pipe (ResourceID r)
  /\ valid_time (CreatedAt r) /\ whole_second (CreatedAt r).

(** The effective page size. *)
Definition normalized (pageSize : Z) : Z :=
  if pageSize <=? 0 then DefaultPageSize else pageSize.

Definition tokenOf (r : Record_) : gostring :=
  encodeContinuationToken (ResourceType r) (ResourceID r) (CreatedAt r).

Definition limitOf (q : Query) : Z :=
  match q with
  | SelectFirstPage limit => limit
  | SelectSeek _ _ _ _ _ _ limit => limit
  end.

(** Where a traversal of [table] stands: [rest] is still to come, and the
    token is that of the row just before it. *)
Inductive position (table rest : list Record_) : gostring -> Prop :=
| at_start : orderByDesc table = rest -> position table rest []
| after_row : forall done c,
    orderByDesc table = done ++ c :: rest -> position table rest (tokenOf c).

(** ** Sample data *)

(** A row with no context, created and updated at [s] seconds and [ns]
    nanoseconds. *)
Definition row (id ty : String.string) (s ns : Z) : Record_ :=
  mkRecord (str id) (str ty) None (mkTime s ns) (mkTime s ns).

(** A store that answers every query with the same rows, as the mock of
    the repository tests does. *)
Definition mockDB (rows : list Record_) : DB := fun _ => Ok rows.

(** The six rows of [TestGetPaginated_FirstPage]. *)
Definition sixRows : list Record_ :=
  [row "user-1" "user" 1234567890 0; row "user-2" "user" 1234567890 0;
   row "user-3" "user" 1234567890 0; row "user-4" "user" 1234567890 0;
   row "user-5" "user" 1234567890 0; row "user-6" "user" 1234567890 0].

(** Three rows, two of them created in the same second. *)
Definition threeRows : list Record_ :=
  [row "user-1" "user" 1234567890 0; row "doc-2" "document" 1234567890 0;
   row "user-3" "user" 1234567891 0].

(** Two rows created within one second, half a second and a tenth of a
    second after it. *)
Definition subsecondRows : list Record_ :=
  [row "a" "t" 10 500000000; row "b" "t" 10 100000000].

(** Two rows, the newer one with the delimiter in its resource id. *)
Definition delimiterRows : list Record_ :=
  [row "a|b" "t" 20 0; row "c" "t" 10 0].

(** The three classes of rejected tokens. *)
Definition badEncoding (token : gostring) : Prop :=
  exists e, Base64.DecodeString token = Err e.

Definition badFormat (token : gostring) : Prop :=
  exists decoded,
    Base64.DecodeString token = Ok decoded /\ length (Split decoded pipe) <> 3%nat.

Definition badTimestamp (token : gostring) : Prop :=
  exists decoded f1 f2 f3,
    Base64.DecodeString token = Ok decoded /\ Split decoded pipe = [f1; f2; f3]
    /\ ~ (exists v, Strconv.IntLiteral f3 v /\ in_int64 v).

(** A strict total order. *)
Class StrictTotal {A : Type} (lt : A -> A -> Prop) : Prop := {
  st_irrefl : forall a, ~ lt a a;
  st_trans : forall a b c, lt a b -> lt b c -> lt a c;
  st_total : forall a b, lt a b \/ a = b \/ lt b a
}.

(** ** The rest of the repository: [CreateTable], [Insert], [GetAll] *)

(** The statements [CreateTable] and [Insert] execute, with the arguments
    bound to their placeholders in order.

    [DropTableIfExists]:
      DROP TABLE IF EXISTS resource_context
    [CreateTableStatement]:
      CREATE TABLE resource_context (resource_id varchar(128) not null,
        resource_type varchar(128) not null, context longtext default null,
        created_at timestamp not null, updated_at timestamp not null,
        PRIMARY KEY (resource_type, resource_id))
    [InsertInto a1 a2 a3 a4 a5]:
      INSERT INTO resource_context
        (resource_id, resource_type, context, created_at, updated_at)
      VALUES (?, ?, ?, ?, ?) *)
Inductive Statement : Type :=
| DropTableIfExists
| CreateTableStatement
| InsertInto (a1 a2 : gostring) (a3 : option gostring) (a4 a5 : Time).

(** [db.Exec] on a database in a state of type [S]: the error, [None]
    for nil, and the state the statement leaves. *)
Definition Exec (S : Type) : Type := Statement -> S -> option sqlError * S.

(** [db.Query] of the statement of [GetAll],
      SELECT ... FROM resource_context ORDER BY created_at DESC,
    answered by the scanned rows or by an error. *)
Definition QueryAll (S : Type) : Type := S -> result sqlError (list Record_).

Definition CreateTable {S : Type} (exec : Exec S) (s : S) : option sqlError * S :=
  match exec DropTableIfExists s with
  | (Some err, s1) => (Some err, s1)
  | (None, s1) => exec CreateTableStatement s1
  end.

(** [Insert]; [now] is the value of [time.Now()]. *)
Definition Insert {S : Type} (exec : Exec S) (now : Time)
  (resourceID resourceType : gostring) (context : option gostring) (s : S)
  : option sqlError * S :=
  exec (InsertInto resourceID resourceType context now now) s.

Definition GetAll {S : Type} (query : QueryAll S) (s : S)
  : result sqlError (list Record_) :=
  match query s with
  | Err err => Err err
  | Ok records => Ok records
  end.

(** ** The database under these statements *)

(** The database: [None] while [resource_context] does not exist, else
    its rows in the order they were inserted. *)
Definition Store : Type := option (list Record_).

(** The primary key of the table forbids a second row with the same
    (resource_type, resource_id). *)
Definition sameKey (resourceType resourceID : gostring) (r : Record_) : bool :=
  str_eqb resourceType (ResourceType r) && str_eqb resourceID (ResourceID r).

(** Rows by [created_at] descending and nothing else: a row is placed
    after the rows that are not older.  (SQL leaves the order of rows with
    equal [created_at] open; here they keep the order of insertion.) *)
Fixpoint insertByCreated (r : Record_) (l : list Record_) : list Record_ :=
  match l with
  | [] => [r]
  | x :: l' =>
      if time_ltb (CreatedAt x) (CreatedAt r) then r :: l
      else x :: insertByCreated r l'
  end.

Definition orderByCreatedDesc (l : list Record_) : list Record_ :=
  fold_left (fun acc r => insertByCreated r acc) l [].

Section Database.

(** The value a [timestamp] column holds for the Go time bound to it (the
    column keeps no fraction of a second; how it drops it is the
    server's business).  The lengths of the [varchar] columns are not
    modelled. *)
Variable column : Time -> Time.

Definition storeExec : Exec Store :=
  fun statement s =>
    match statement with
    | DropTableIfExists => (None, None)
    | CreateTableStatement =>
        match s with
        | None => (None, Some [])
        | Some _ => (Some (SqlError (str "Table 'resource_context' already exists")), s)
        end
    | InsertInto a1 a2 a3 a4 a5 =>
        match s with
        | None => (Some (SqlError (str "Table 'resource_context' doesn't exist")), s)
        | Some rows =>
            if existsb (sameKey a2 a1) rows
            then (Some (SqlError (str "Duplicate entry for key 'PRIMARY'")), s)
            else (None, Some (rows ++ [mkRecord a1 a2 a3 (column a4) (column a5)]))
        end
    end.

Definition storeQueryAll : QueryAll Store :=
  fun s =>
    match s with
    | None => Err (SqlError (str "Table 'resource_context' doesn't exist"))
    | Some rows => Ok (orderByCreatedDesc rows)
    end.

(** The paginated queries on the database. *)
Definition storeDB (s : Store) : DB :=
  match s with
  | None => fun _ => Err (SqlError (str "Table 'resource_context' doesn't exist"))
  | Some rows => tableDB rows
  end.

End Database.

(** ** The handler package *)

(** [RecordRepositoryInterface], over the state [S] its methods act on and
    the type [E] of its errors. *)
Record RecordRepositoryInterface (S E : Type) : Type := {
  repoCreateTable : S -> option E * S;
  repoInsert : gostring -> gostring -> option gostring -> S -> option E * S;
  repoGetAll : S -> result E (list Record_) * S;
  repoGetPaginated : gostring -> Z -> S -> result E PaginatedResult * S
}.
Arguments repoCreateTable {S E} _ _.
Arguments repoInsert {S E} _ _ _ _ _.
Arguments repoGetAll {S E} _ _.
Arguments repoGetPaginated {S E} _ _ _ _.

(** The bodies the handlers write with [c.JSON]. *)
Inductive JSON : Type :=
| HError (error : gostring)
    (* gin.H{"error": error} *)
| HCreated (resource_id resource_type : gostring)
    (* gin.H{"message": "Record created successfully", "resource_id": ..., "resource_type": ...} *)
| HRecords (records : list Record_)
    (* gin.H{"records": records} *)
| JResult (result : PaginatedResult).

Record Response : Type := mkResponse { status : Z; body : JSON }.

Definition StatusOK : Z := 200.
Definition StatusCreated : Z := 201.
Definition StatusBadRequest : Z := 400.
Definition StatusInternalServerError : Z := 500.

(** The query parameters of a request: [c.Query(key)], the empty string
    for a key that is not there. *)
Definition Params : Type := gostring -> gostring.

(** [strconv.Atoi]: [ParseInt(s, 10, 0)] converted to [int], 64 bits wide. *)
Definition Atoi (s : gostring) : result Strconv.NumError Z := Strconv.ParseInt s.

(** Lines 74-84 of [GetRecordsPaginated]: the page size of a request from
    the value of its [page_size] parameter. *)
Definition requestedPageSize (pageSizeStr : gostring) : Z :=
  let pageSize := 5 in
  match pageSizeStr with
  | [] => pageSize
  | _ :: _ =>
      match Atoi pageSizeStr with
      | Ok ps =>
          if ps >? 0 then (if ps >? 100 then 100 else ps) else pageSize
      | Err _ => pageSize
      end
  end.

Section Handlers.

Context {S E : Type}.
Variable repo : RecordRepositoryInterface S E.

(** [err.Error()] *)
Variable errorText : E -> gostring.

Definition GetRecords (s : S) : Response * S :=
  match repoGetAll repo s with
  | (Err _, s') =>
      (mkResponse StatusInternalServerError
         (HError (str "Failed to retrieve records")), s')
  | (Ok records, s') => (mkResponse StatusOK (HRecords records), s')
  end.

Definition GetRecordsPaginated (c : Params) (s : S) : Response * S :=
  let continuationToken := c (str "continuation_token") in
  let pageSize := requestedPageSize (c (str "page_size")) in
  match repoGetPaginated repo continuationToken pageSize s with
  | (Err err, s') => (mkResponse StatusBadRequest (HError (errorText err)), s')
  | (Ok result, s') => (mkResponse StatusOK (JResult result), s')
  end.

Definition CreateRecordFromQuery (c : Params) (s : S) : Response * S :=
  let resourceID := c (str "resource_id") in
  let resourceType := c (str "resource_type") in
  let contextStr := c (str "context") in
  match resourceID with
  | [] =>
      (mkResponse StatusBadRequest
         (HError (str "resource_id query parameter is required")), s)
  | _ :: _ =>
      match resourceType with
      | [] =>
          (mkResponse StatusBadRequest
             (HError (str "resource_type query parameter is required")), s)
      | _ :: _ =>
          let context :=
            match contextStr with
            | [] => None
            | _ :: _ => Some contextStr
            end in
          match repoInsert repo resourceID resourceType context s with
          | (Some _, s') =>
              (mkResponse StatusInternalServerError
                 (HError (str "Failed to create record")), s')
          | (None, s') =>
              (mkResponse StatusCreated (HCreated resourceID resourceType), s')
          end
      end
  end.

End Handlers.

(** ** The service: the repository on the database, behind the handlers *)

(** The database and the number of readings of the clock so far. *)
Record World : Type := mkWorld { store : Store; tick : nat }.

Section Service.

Variable column : Time -> Time.

(** [time.Now()] at each reading of the clock. *)
Variable clock : nat -> Time.

Definition liftExec (r : option sqlError * Store) (t : nat) : option Error * World :=
  (option_map StoreQueryFailed (fst r), mkWorld (snd r) t).

(** [*RecordRepository] as a [RecordRepositoryInterface]. *)
Definition repository : RecordRepositoryInterface World Error := {|
  repoCreateTable := fun w => liftExec (CreateTable (storeExec column) (store w)) (tick w);
  repoInsert := fun resourceID resourceType context w =>
    liftExec (Insert (storeExec column) (clock (tick w))
                resourceID resourceType context (store w))
             (S (tick w));
  repoGetAll := fun w =>
    (match GetAll storeQueryAll (store w) with
     | Err err => Err (StoreQueryFailed err)
     | Ok records => Ok records
     end, w);
  repoGetPaginated := fun continuationToken pageSize w =>
    (snd (GetPaginated (storeDB (store w)) continuationToken pageSize), w)
|}.

End Service.

(** ** The states of the database the repository produces *)

(** The database after [CreateTable] and then any number of [Insert]s,
    whether they succeed or not. *)
Inductive produced (column : Time -> Time) : Store -> Prop :=
| produced_create : forall s,
    produced column (snd (CreateTable (storeExec column) s))
| produced_insert : forall s now resourceID resourceType context,
    produced column s ->
    produced column
      (snd (Insert (storeExec column) now resourceID resourceType context s)).

(** A column of type [timestamp]: whole seconds within the range of a
    64-bit Unix time, here by cutting the fraction. *)
Definition secondsColumn (t : Time) : Time := mkTime (int64 (sec t)) 0.

(** ** [main]: the sample data at startup *)

Record SampleRecord : Type := mkSampleRecord {
  SampleResourceID : gostring;
  SampleResourceType : gostring;
  SampleContext : option gostring
}.

(** The sample records left when every record whose (resource_type,
    resource_id) is in [seen] or occurred before is dropped. *)
Fixpoint firstOccurrences (seen : list (gostring * gostring))
  (records : list SampleRecord) : list SampleRecord :=
  match records with
  | [] => []
  | record :: rest =>
      let key := (SampleResourceType record, SampleResourceID record) in
      if existsb (fun k => str_eqb (fst key) (fst k) && str_eqb (snd key) (snd k)) seen
      then firstOccurrences seen rest
      else record :: firstOccurrences (seen ++ [key]) rest
  end.

Section Main.

Variable column : Time -> Time.
Variable clock : nat -> Time.

(** The type of the errors of [loadSampleData] and its result on
    [sample_data.txt]. *)
Context {L : Type}.
Variable loadSampleData : result L (list SampleRecord).

(** The loop of [populateSampleData]: a failed [Insert] is logged and the
    loop goes on. *)
Definition insertSamples (records : list SampleRecord) (w : World) : World :=
  fold_left
    (fun w record =>
       snd (repoInsert (repository column clock)
              (SampleResourceID record) (SampleResourceType record)
              (SampleContext record) w))
    records w.

(** [populateSampleData]; the error is that of [GetAll], or that of
    [loadSampleData] wrapped as "failed to load sample data: %v". *)
Definition populateSampleData (w : World) : option (Error + L) * World :=
  match repoGetAll (repository column clock) w with
  | (Err err, w1) => (Some (inl err), w1)
  | (Ok existingRecords, w1) =>
      if (0 <? length existingRecords)%nat then (None, w1)
      else
        match loadSampleData with
        | Err err => (Some (inr err), w1)
        | Ok records => (None, insertSamples records w1)
        end
  end.

(** [main] up to the start of the server: [log.Fatal] on an error of
    [CreateTable] or of [populateSampleData] ([None]), else the world the
    server starts in. *)
Definition startup (w : World) : option World :=
  match repoCreateTable (repository column clock) w with
  | (Some _, _) => None
  | (None, w1) =>
      match populateSampleData w1 with
      | (Some _, _) => None
      | (None, w2) => Some w2
      end
  end.

End Main.

(** The rows a produced database holds. *)
Definition producedRows (column : Time -> Time) (rows : list Record_) : Prop :=
  NoDup (map (fun r => (ResourceType r, ResourceID r)) rows)
  /\ forall r, In r rows ->
               CreatedAt r = UpdatedAt r /\ exists t, CreatedAt r = column t.


(** The parameters of [POST /records/create?resource_id=user-1&resource_type=user]. *)
Definition sampleParams : Params :=
  fun key =>
    if str_eqb key (str "resource_id") then str "user-1"
    else if str_eqb key (str "resource_type") then str "user"
    else [].

(** A clock that advances by a second and a half at each reading. *)
Definition sampleClock (n : nat) : Time :=
  mkTime (1234567890 + Z.of_nat n + Z.of_nat n / 2) (Z.of_nat n mod 2 * 500000000).

(** ** [loadSampleData] *)

Section SampleFile.

(** [strings.TrimSpace] *)
Variable TrimSpace : gostring -> gostring.

Context {L : Type}.

(** The body of the loop of [loadSampleData] over the lines the scanner
    returns: an empty line is skipped, and so is, with a warning, a line
    with fewer than two fields. *)
Fixpoint scanLines (texts : list gostring) : list SampleRecord :=
  match texts with
  | [] => []
  | text :: rest =>
      let line := TrimSpace text in
      match line with
      | [] => scanLines rest
      | _ :: _ =>
          let parts := Split line pipe in
          if (length parts <? 2)%nat then scanLines rest
          else
            let context :=
              if (3 <=? length parts)%nat
              then match nth 2 parts [] with
                   | [] => None
                   | _ :: _ => Some (nth 2 parts [])
                   end
              else None in
            mkSampleRecord (nth 0 parts []) (nth 1 parts []) context :: scanLines rest
      end
  end.

(** [loadSampleData] on a file: the error of [os.Open], or the lines the
    scanner returned with the error it stopped on, if any. *)
Definition loadSampleData (file : result L (list gostring * option L))
  : result L (list SampleRecord) :=
  match file with
  | Err err => Err err
  | Ok (texts, scanErr) =>
      match scanErr with
      | Some err => Err err
      | None => Ok (scanLines texts)
      end
  end.

End SampleFile.

(** The three lines of a sample file. *)
Definition sampleLines : list gostring :=
  [str "user-1|user|{}"; str ""; str "doc-2|document"].

(** ** A client of [GET /records/paginated] *)

(** The parameters of a request for a page. *)
Definition pageParams (token pageSizeStr : gostring) : Params :=
  fun key =>
    if str_eqb key (str "continuation_token") then token
    else if str_eqb key (str "page_size") then pageSizeStr
    else [].

Section Client.

Variable column : Time -> Time.
Variable clock : nat -> Time.
Variable errorText : Error -> gostring.

(** The client's loop: ask for a page with the same [page_size] and the
    token of the page before, until an answer carries no token.  [None] on
    an answer that is not 200 or when [fuel] requests did not reach the
    end. *)
Fixpoint followEndpoint (fuel : nat) (pageSizeStr token : gostring) (w : World)
  : option (list Record_) :=
  match fuel with
  | O => None
  | S fuel' =>
      let answer :=
        GetRecordsPaginated (repository column clock) errorText
          (pageParams token pageSizeStr) w in
      match body (fst answer) with
      | JResult page =>
          if status (fst answer) =? StatusOK then
            match NextContinuationToken page with
            | None => Some (Records page)
            | Some next =>
                match followEndpoint fuel' pageSizeStr next (snd answer) with
                | Some more => Some (Records page ++ more)
                | None => None
                end
            end
          else None
      | _ => None
      end
  end.

End Client.

(** * Facts *)

(** ** Bytes and bit operations *)

Lemma uint_range (a : ascii) : 0 <= uint a < 256.
Proof.
  unfold uint. pose proof (N_ascii_bounded a). lia.
Qed.

Lemma land_255 (v : Z) : Z.land v 255 = v mod 256.
Proof. change 255 with (Z.ones 8). now rewrite Z.land_ones by lia. Qed.

Lemma land_63 (v : Z) : Z.land v 63 = v mod 64.
Proof. change 63 with (Z.ones 6). now rewrite Z.land_ones by lia. Qed.

Lemma byte_uint (a : ascii) : byte (uint a) = a.
Proof.
  unfold byte. rewrite land_255, Z.mod_small by apply uint_range.
  unfold uint. rewrite N2Z.id. apply ascii_N_embedding.
Qed.

Lemma uint_byte (v : Z) : 0 <= v < 256 -> uint (byte v) = v.
Proof.
  intros Hv. unfold uint, byte.
  rewrite land_255, Z.mod_small by lia.
  rewrite N_ascii_embedding by lia. lia.
Qed.

Lemma uint_inj (a b : ascii) : uint a = uint b -> a = b.
Proof.
  intros H. rewrite <- (byte_uint a), <- (byte_uint b). now rewrite H.
Qed.

(** Bits that do not overlap add up. *)
Lemma lor_disjoint (a b k : Z) :
  0 <= k -> a mod 2 ^ k = 0 -> 0 <= b < 2 ^ k -> Z.lor a b = a + b.
Proof.
  intros Hk Ha Hb.
  assert (Hland : Z.land a b = 0).
  { apply Z.bits_inj'. intros n Hn.
    rewrite Z.land_spec, Z.bits_0.
    rewrite <- (Z.mod_small b (2 ^ k)) by lia.
    rewrite Z.testbit_mod_pow2 by lia.
    destruct (Z.ltb_spec n k) as [Hlt | Hge]; [ | now rewrite andb_false_r ].
    rewrite (Z.div_mod a (2 ^ k)) by lia.
    rewrite Ha, Z.add_0_r, Z.mul_comm, Z.mul_pow2_bits_low by lia.
    reflexivity. }
  pose proof (Z.add_lor_land a b). lia.
Qed.

Ltac to_arith :=
  rewrite ?Z.shiftl_mul_pow2, ?Z.shiftr_div_pow2, ?land_63, ?land_255 by lia.

(** ** Base64 *)
Module Base64Facts.
Import Base64.

Lemma decodeMap_encode (i : Z) : 0 <= i < 64 -> decodeMap (encode i) = Some i.
Proof.
  intros Hi. unfold encode.
  rewrite <- (Z2Nat.id i) at 2 by lia.
  assert (Hn : (Z.to_nat i < 64)%nat) by lia.
  generalize dependent (Z.to_nat i). intros n Hn.
  do 64 (destruct n as [ | n ]; [ reflexivity | ]). lia.
Qed.

Lemma val3 (a b c : ascii) :
  Z.lor (Z.lor (Z.shiftl (uint a) 16) (Z.shiftl (uint b) 8)) (uint c) = quantum a b c.
Proof.
  pose proof (uint_range a). pose proof (uint_range b). pose proof (uint_range c).
  unfold quantum. to_arith.
  rewrite (lor_disjoint (uint a * 2 ^ 16) _ 16) by
    (try apply Z_mod_mult; lia).
  rewrite (lor_disjoint _ (uint c) 8); [ lia | lia | | lia ].
  change (2 ^ 16) with (256 * 2 ^ 8).
  rewrite Z.mul_assoc, <- Z.mul_add_distr_r. apply Z_mod_mult.
Qed.

Lemma val2 (a b : ascii) :
  Z.lor (Z.shiftl (uint a) 16) (Z.shiftl (uint b) 8) = quantum a b "000"%char.
Proof.
  rewrite <- val3. change (uint "000"%char) with 0. now rewrite Z.lor_0_r.
Qed.

Lemma val1 (a : ascii) :
  Z.shiftl (uint a) 16 = quantum a "000"%char "000"%char.
Proof.
  rewrite <- val2. change (uint "000"%char) with 0.
  now rewrite Z.shiftl_0_l, Z.lor_0_r.
Qed.

Lemma quantum_range (a b c : ascii) : 0 <= quantum a b c < 2 ^ 24.
Proof.
  pose proof (uint_range a). pose proof (uint_range b). pose proof (uint_range c).
  unfold quantum. lia.
Qed.

Lemma sextet_range (v : Z) : 0 <= Z.land v 63 < 64.
Proof. rewrite land_63. apply Z.mod_pos_bound. lia. Qed.

(** Packing six-bit values: the value [decodeQuantum] computes. *)
Lemma pack4 (s0 s1 s2 s3 : Z) :
  0 <= s0 < 64 -> 0 <= s1 < 64 -> 0 <= s2 < 64 -> 0 <= s3 < 64 ->
  Z.lor (Z.lor (Z.lor (Z.shiftl s0 18) (Z.shiftl s1 12)) (Z.shiftl s2 6)) s3
  = s0 * 262144 + s1 * 4096 + s2 * 64 + s3.
Proof.
  intros H0 H1 H2 H3. to_arith.
  rewrite (lor_disjoint (s0 * 2 ^ 18) _ 18) by (try apply Z_mod_mult; lia).
  rewrite (lor_disjoint _ (s2 * 2 ^ 6) 12); [ | lia | | lia ].
  - rewrite (lor_disjoint _ s3 6); [ lia | lia | | lia ].
    replace (s0 * 2 ^ 18 + s1 * 2 ^ 12 + s2 * 2 ^ 6)
      with ((s0 * 4096 + s1 * 64 + s2) * 2 ^ 6) by lia.
    apply Z_mod_mult.
  - replace (s0 * 2 ^ 18 + s1 * 2 ^ 12) with ((s0 * 64 + s1) * 2 ^ 12) by lia.
    apply Z_mod_mult.
Qed.

Lemma repack (v : Z) :
  0 <= v < 2 ^ 24 ->
  Z.lor (Z.lor (Z.lor (Z.shiftl (Z.land (Z.shiftr v 18) 63) 18)
                      (Z.shiftl (Z.land (Z.shiftr v 12) 63) 12))
               (Z.shiftl (Z.land (Z.shiftr v 6) 63) 6))
        (Z.land v 63)
  = v.
Proof.
  intros Hv.
  rewrite pack4 by apply sextet_range.
  to_arith.
  change (2 ^ 18) with 262144. change (2 ^ 12) with 4096. change (2 ^ 6) with 64.
  change (2 ^ 24) with 16777216 in Hv.
  Z.div_mod_to_equations. lia.
Qed.

Lemma byte_eq (v : Z) (a : ascii) : v mod 256 = uint a -> byte v = a.
Proof.
  intros H. rewrite <- (byte_uint a). unfold byte.
  rewrite !land_255, H. now rewrite Z.mod_small by apply uint_range.
Qed.

Lemma unpack (a b c : ascii) :
  byte (Z.shiftr (quantum a b c) 16) = a
  /\ byte (Z.shiftr (quantum a b c) 8) = b
  /\ byte (quantum a b c) = c.
Proof.
  pose proof (uint_range a). pose proof (uint_range b). pose proof (uint_range c).
  repeat split; apply byte_eq; to_arith; unfold quantum;
    change (2 ^ 16) with 65536; change (2 ^ 8) with 256;
    Z.div_mod_to_equations; lia.
Qed.

Lemma assemble4 (a b c : ascii) :
  let v := quantum a b c in
  assemble [Z.land (Z.shiftr v 18) 63; Z.land (Z.shiftr v 12) 63;
            Z.land (Z.shiftr v 6) 63; Z.land v 63] = [a; b; c].
Proof.
  intros v; subst v. unfold assemble. cbn [nth length Nat.sub firstn].
  rewrite repack by apply quantum_range.
  destruct (unpack a b c) as (-> & -> & ->). reflexivity.
Qed.

Lemma assemble3 (a b : ascii) :
  let v := quantum a b "000"%char in
  assemble [Z.land (Z.shiftr v 18) 63; Z.land (Z.shiftr v 12) 63;
            Z.land (Z.shiftr v 6) 63] = [a; b].
Proof.
  intros v; subst v. unfold assemble. cbn [nth length Nat.sub firstn].
  rewrite pack4 by (try apply sextet_range; lia).
  pose proof (uint_range a). pose proof (uint_range b).
  f_equal; [ | f_equal ]; apply byte_eq; to_arith; unfold quantum;
    change (uint "000"%char) with 0;
    change (2 ^ 18) with 262144; change (2 ^ 16) with 65536;
    change (2 ^ 12) with 4096; change (2 ^ 8) with 256; change (2 ^ 6) with 64;
    Z.div_mod_to_equations; lia.
Qed.

Lemma assemble2 (a : ascii) :
  let v := quantum a "000"%char "000"%char in
  assemble [Z.land (Z.shiftr v 18) 63; Z.land (Z.shiftr v 12) 63] = [a].
Proof.
  intros v; subst v. unfold assemble. cbn [nth length Nat.sub firstn].
  rewrite pack4 by (try apply sextet_range; lia).
  pose proof (uint_range a).
  f_equal; apply byte_eq; to_arith; unfold quantum;
    change (uint "000"%char) with 0;
    change (2 ^ 18) with 262144; change (2 ^ 16) with 65536;
    change (2 ^ 12) with 4096;
    Z.div_mod_to_equations; lia.
Qed.

Lemma decodeLoop_value (c : ascii) (v : Z) (rest : list ascii) (dbuf : list Z) :
  decodeMap c = Some v ->
  decodeLoop (c :: rest) dbuf
  = if (length (dbuf ++ [v]) =? 4)%nat
    then bind (decodeLoop rest []) (fun tl => Ok (assemble (dbuf ++ [v]) ++ tl))
    else decodeLoop rest (dbuf ++ [v]).
Proof. intros H. cbn [decodeLoop]. now rewrite H. Qed.

Lemma decodeLoop_quantum (s0 s1 s2 s3 : Z) (rest : list ascii) :
  0 <= s0 < 64 -> 0 <= s1 < 64 -> 0 <= s2 < 64 -> 0 <= s3 < 64 ->
  decodeLoop (encode s0 :: encode s1 :: encode s2 :: encode s3 :: rest) []
  = bind (decodeLoop rest []) (fun tl => Ok (assemble [s0; s1; s2; s3] ++ tl)).
Proof.
  intros H0 H1 H2 H3.
  do 4 (erewrite decodeLoop_value by (apply decodeMap_encode; eassumption);
        cbn [app length Nat.eqb]).
  reflexivity.
Qed.

Lemma decodeLoop_pad2 (s0 s1 : Z) :
  decodeLoop [padChar; padChar] [s0; s1] = Ok (assemble [s0; s1]).
Proof. reflexivity. Qed.

Lemma decodeLoop_pad1 (s0 s1 s2 : Z) :
  decodeLoop [padChar] [s0; s1; s2] = Ok (assemble [s0; s1; s2]).
Proof. reflexivity. Qed.

Lemma list_ind3 {A} (P : list A -> Prop) :
  P [] -> (forall a, P [a]) -> (forall a b, P [a; b]) ->
  (forall a b c l, P l -> P (a :: b :: c :: l)) ->
  forall l, P l.
Proof.
  intros H0 H1 H2 H3.
  assert (H : forall l, P l /\ (forall a, P (a :: l)) /\ (forall a b, P (a :: b :: l))).
  { induction l as [ | x l (IH0 & IH1 & IH2) ]; [ now auto | ].
    repeat split; auto. }
  intros l. apply H.
Qed.

(** Decoding inverts encoding on every byte sequence. *)
Theorem DecodeString_EncodeToString (src : list ascii) :
  DecodeString (EncodeToString src) = Ok src.
Proof.
  unfold DecodeString. induction src as [ | a | a b | a b c l IH ] using list_ind3.
  - reflexivity.
  - cbn [EncodeToString]. rewrite val1.
    do 2 (erewrite decodeLoop_value by apply decodeMap_encode, sextet_range;
          cbn [app length Nat.eqb]).
    rewrite decodeLoop_pad2. now rewrite assemble2.
  - cbn [EncodeToString]. rewrite val2.
    do 3 (erewrite decodeLoop_value by apply decodeMap_encode, sextet_range;
          cbn [app length Nat.eqb]).
    rewrite decodeLoop_pad1. now rewrite assemble3.
  - cbn [EncodeToString]. rewrite val3.
    rewrite decodeLoop_quantum by apply sextet_range.
    rewrite IH. cbn [bind]. now rewrite assemble4.
Qed.

Lemma urlSafe_encode (i : Z) : 0 <= i < 64 -> urlSafe (encode i) = true.
Proof.
  intros Hi. unfold encode.
  assert (Hn : (Z.to_nat i < 64)%nat) by lia.
  generalize dependent (Z.to_nat i). intros n Hn.
  do 64 (destruct n as [ | n ]; [ reflexivity | ]). lia.
Qed.

Theorem urlSafe_EncodeToString (src : list ascii) :
  Forall (fun c => urlSafe c = true) (EncodeToString src).
Proof.
  induction src as [ | a | a b | a b c l IH ] using list_ind3;
    cbn [EncodeToString];
    repeat (apply Forall_cons;
            [ first [ reflexivity | apply urlSafe_encode, sextet_range ] | ]);
    auto.
Qed.

Lemma decodeMap_urlSafe (c : ascii) (v : Z) :
  decodeMap c = Some v -> urlSafe c = true.
Proof.
  destruct c as [b0 b1 b2 b3 b4 b5 b6 b7].
  destruct b0, b1, b2, b3, b4, b5, b6, b7; vm_compute; congruence.
Qed.

Lemma skipNewlines_split (src rest : list ascii) (c : ascii) :
  skipNewlines src = c :: rest ->
  exists nl, src = nl ++ c :: rest /\ Forall (fun x => isNewline x = true) nl.
Proof.
  induction src as [ | x src IH ]; cbn; [ discriminate | ].
  destruct (isNewline x) eqn:Hx.
  - intros H. destruct (IH H) as (nl & -> & Hnl).
    exists (x :: nl). split; [ reflexivity | now constructor ].
  - intros H. exists []. split; [ exact H | constructor ].
Qed.

Lemma skipNewlines_nil (src : list ascii) :
  skipNewlines src = [] -> Forall (fun x => isNewline x = true) src.
Proof.
  induction src as [ | x src IH ]; cbn; [ constructor | ].
  destruct (isNewline x) eqn:Hx; [ | discriminate ].
  intros H. constructor; auto.
Qed.

Lemma endOfInput_accepted (rest out bs : list ascii) :
  endOfInput rest out = Ok bs -> Forall accepted rest.
Proof.
  unfold endOfInput. destruct (skipNewlines rest) eqn:Hskip; [ | discriminate ].
  intros _. apply skipNewlines_nil in Hskip.
  eapply Forall_impl; [ | exact Hskip ]. intros x Hx. now right.
Qed.

Lemma decodeLoop_accepted (src : list ascii) :
  forall dbuf bs, decodeLoop src dbuf = Ok bs -> Forall accepted src.
Proof.
  induction src as [ | c rest IH ]; intros dbuf bs H; [ constructor | ].
  cbn [decodeLoop] in H.
  destruct (decodeMap c) as [ v | ] eqn:Hmap.
  - constructor; [ left; now apply decodeMap_urlSafe with v | ].
    destruct (length (dbuf ++ [v]) =? 4)%nat.
    + destruct (decodeLoop rest []) as [ tl | e ] eqn:Hrest; [ | discriminate ].
      now apply (IH [] tl).
    + now apply (IH (dbuf ++ [v]) bs).
  - destruct (isNewline c) eqn:Hnl.
    + constructor; [ now right | now apply (IH dbuf bs) ].
    + destruct (Ascii.eqb_spec c padChar) as [ -> | ]; [ | discriminate ].
      constructor; [ now left | ].
      destruct dbuf as [ | s0 [ | s1 [ | s2 l ] ] ]; cbn [length] in H;
        try discriminate.
      * destruct (skipNewlines rest) as [ | c2 rest2 ] eqn:Hskip; [ discriminate | ].
        destruct (Ascii.eqb_spec c2 padChar) as [ -> | ]; [ | discriminate ].
        apply skipNewlines_split in Hskip. destruct Hskip as (nl & -> & Hnls).
        apply Forall_app. split.
        -- eapply Forall_impl; [ | exact Hnls ]. intros x Hx. now right.
        -- constructor; [ now left | now apply endOfInput_accepted in H ].
      * now apply endOfInput_accepted in H.
Qed.

(** A token with a byte outside the URL-safe alphabet, the padding and the
    line breaks is rejected. *)
Theorem DecodeString_accepted (s : gostring) (bs : list ascii) :
  DecodeString s = Ok bs -> Forall accepted s.
Proof. apply decodeLoop_accepted. Qed.

End Base64Facts.

(** ** Machine integers *)

Lemma int64_id (z : Z) : in_int64 z -> int64 z = z.
Proof.
  unfold in_int64, minInt64, maxInt64, int64. intros H.
  rewrite Z.mod_small; lia.
Qed.

Lemma int64_range (z : Z) : in_int64 (int64 z).
Proof.
  unfold in_int64, minInt64, maxInt64, int64.
  pose proof (Z.mod_pos_bound (z + 2 ^ 63) (2 ^ 64)). lia.
Qed.

(** ** Decimal integers *)
Module StrconvFacts.
Import Strconv.

Lemma digit_Some (c : ascii) (d : Z) :
  digit c = Some d <-> isDigit c /\ d = uint c - 48.
Proof.
  unfold digit, isDigit.
  destruct (Z.leb_spec 48 (uint c)), (Z.leb_spec (uint c) 57); cbn;
    split; intros H'; try discriminate; try lia.
  - injection H' as <-. lia.
  - destruct H' as [_ ->]. reflexivity.
Qed.

Lemma digit_None (c : ascii) : digit c = None <-> ~ isDigit c.
Proof.
  unfold digit, isDigit.
  destruct (Z.leb_spec 48 (uint c)), (Z.leb_spec (uint c) 57); cbn;
    split; intros H'; try discriminate; try lia; reflexivity.
Qed.

Lemma decimalFrom_ge (ds : list ascii) (n : Z) :
  Forall isDigit ds -> 0 <= n -> n <= decimalFrom n ds.
Proof.
  intros Hds. revert n.
  induction Hds as [ | c ds Hc _ IH ]; intros n Hn; [ cbn; lia | ].
  change (n <= decimalFrom (decimalStep n c) ds).
  unfold isDigit in Hc.
  assert (Hstep : n <= decimalStep n c) by (unfold decimalStep; lia).
  specialize (IH (decimalStep n c)). lia.
Qed.

Lemma parseUintLoop_Ok (ds : list ascii) (n m : Z) :
  0 <= n <= maxVal ->
  parseUintLoop ds n = Ok m ->
  Forall isDigit ds /\ m = decimalFrom n ds /\ 0 <= m <= maxVal.
Proof.
  revert n. induction ds as [ | c ds IH ]; intros n Hn H; cbn [parseUintLoop] in H.
  - injection H as <-. repeat split; try constructor; lia.
  - destruct (digit c) as [ d | ] eqn:Hd; [ | discriminate ].
    apply digit_Some in Hd. destruct Hd as [Hc ->].
    destruct (Z.geb_spec n cutoff) as [ | Hcut ]; [ discriminate | ].
    unfold cutoff, maxVal, uint64, isDigit in *.
    change (2 ^ 64) with 18446744073709551616 in *.
    change ((18446744073709551616 - 1) / 10 + 1) with 1844674407370955162 in Hcut.
    rewrite (Z.mod_small (n * 10)) in H by lia.
    destruct (Z.ltb_spec ((n * 10 + (uint c - 48)) mod 18446744073709551616) (n * 10))
      as [ | Hov ]; [ discriminate | ].
    destruct (Z.gtb_spec ((n * 10 + (uint c - 48)) mod 18446744073709551616)
                (18446744073709551616 - 1)) as [ | ]; [ discriminate | ].
    cbn [orb] in H.
    assert (Hsmall : n * 10 + (uint c - 48) < 18446744073709551616).
    { destruct (Z.lt_ge_cases (n * 10 + (uint c - 48)) 18446744073709551616)
        as [ | Hbig ]; [ assumption | exfalso ].
      revert Hov. Z.div_mod_to_equations. lia. }
    rewrite Z.mod_small in H by lia.
    apply IH in H; [ | lia ].
    destruct H as (Hds & -> & Hm).
    repeat split; [ constructor; assumption | lia | lia ].
Qed.

Lemma parseUintLoop_complete (ds : list ascii) (n : Z) :
  0 <= n -> Forall isDigit ds -> decimalFrom n ds <= maxVal ->
  parseUintLoop ds n = Ok (decimalFrom n ds).
Proof.
  intros Hn Hds. revert n Hn.
  induction Hds as [ | c ds Hc Hds IH ]; intros n Hn Hle; cbn [parseUintLoop];
    [ reflexivity | ].
  destruct (digit c) as [ d | ] eqn:Hd;
    [ | apply digit_None in Hd; contradiction ].
  apply digit_Some in Hd. destruct Hd as [_ ->].
  change (decimalFrom (decimalStep n c) ds <= maxVal) in Hle.
  assert (Hstep : decimalStep n c <= maxVal).
  { etransitivity; [ apply decimalFrom_ge | exact Hle ]; [ assumption | ].
    unfold decimalStep, isDigit in *. lia. }
  unfold decimalStep, cutoff, maxVal, uint64, isDigit in *.
  change (2 ^ 64) with 18446744073709551616 in *.
  change ((18446744073709551616 - 1) / 10 + 1) with 1844674407370955162.
  destruct (Z.geb_spec n 1844674407370955162); [ lia | ].
  rewrite (Z.mod_small (n * 10)) by lia.
  rewrite Z.mod_small by lia.
  destruct (Z.ltb_spec (n * 10 + (uint c - 48)) (n * 10)); [ lia | ].
  destruct (Z.gtb_spec (n * 10 + (uint c - 48)) (18446744073709551616 - 1));
    [ lia | ].
  cbn [orb]. apply IH; lia.
Qed.

Lemma ParseUint_Ok (s : gostring) (un : Z) :
  ParseUint s = Ok un ->
  s <> [] /\ Forall isDigit s /\ un = decimalValue s /\ 0 <= un <= maxVal.
Proof.
  destruct s as [ | c s ]; [ discriminate | ]. unfold ParseUint. intros H.
  apply parseUintLoop_Ok in H; [ | unfold maxVal; lia ].
  split; [ discriminate | exact H ].
Qed.

Lemma ParseUint_complete (s : gostring) :
  s <> [] -> Forall isDigit s -> decimalValue s <= maxVal ->
  ParseUint s = Ok (decimalValue s).
Proof.
  destruct s as [ | c s ]; [ congruence | ]. intros _ Hds Hle.
  unfold ParseUint. apply parseUintLoop_complete; [ lia | assumption | assumption ].
Qed.

Lemma decimalValue_nonneg (ds : list ascii) : Forall isDigit ds -> 0 <= decimalValue ds.
Proof. intros H. apply (decimalFrom_ge ds 0 H). lia. Qed.

Lemma int64_neg (un : Z) : 0 <= un <= 2 ^ 63 -> int64 (- int64 un) = - un.
Proof.
  intros H. destruct (Z.eq_dec un (2 ^ 63)) as [ -> | Hne ]; [ reflexivity | ].
  rewrite (int64_id un), int64_id;
    unfold in_int64, minInt64, maxInt64; lia.
Qed.

Lemma isDigit_not_sign (c : ascii) :
  isDigit c -> Ascii.eqb c "+"%char = false /\ Ascii.eqb c "-"%char = false.
Proof.
  unfold isDigit. intros H.
  split; apply Ascii.eqb_neq; intros ->; cbn in H; lia.
Qed.

(** [ParseInt(s, 10, 64)] succeeds exactly on the base-10 literals whose
    value a signed 64-bit integer holds, and returns that value. *)
Theorem ParseInt_Ok_iff (s : gostring) (v : Z) :
  ParseInt s = Ok v <-> IntLiteral s v /\ in_int64 v.
Proof.
  split.
  - destruct s as [ | c rest ]; [ discriminate | ].
    unfold ParseInt.
    destruct (Ascii.eqb_spec c "-"%char) as [ -> | Hminus ].
    + change (Ascii.eqb "-" "+") with false. cbn [orb negb andb].
      change (maxVal >? 2 ^ 63) with true.
      destruct (ParseUint rest) as [ un | [ | ] ] eqn:Hu; [ | discriminate | ].
      * apply ParseUint_Ok in Hu. destruct Hu as (Hne & Hds & -> & Hr).
        destruct (Z.gtb_spec (decimalValue rest) (2 ^ 63)); [ discriminate | ].
        intros Hv. injection Hv as <-.
        rewrite int64_neg by lia.
        split; [ now constructor | ].
        unfold in_int64, minInt64, maxInt64. lia.
      * discriminate.
    + destruct (Ascii.eqb_spec c "+"%char) as [ -> | Hplus ].
      * cbn [orb negb andb]. change (maxVal >=? 2 ^ 63) with true.
        destruct (ParseUint rest) as [ un | [ | ] ] eqn:Hu; [ | discriminate | ].
        -- apply ParseUint_Ok in Hu. destruct Hu as (Hne & Hds & -> & Hr).
           destruct (Z.geb_spec (decimalValue rest) (2 ^ 63)); [ discriminate | ].
           intros Hv. injection Hv as <-.
           assert (Hin : in_int64 (decimalValue rest))
             by (unfold in_int64, minInt64, maxInt64; lia).
           rewrite int64_id by assumption.
           split; [ now constructor | assumption ].
        -- discriminate.
      * cbn [orb negb andb]. change (maxVal >=? 2 ^ 63) with true.
        destruct (ParseUint (c :: rest)) as [ un | [ | ] ] eqn:Hu; [ | discriminate | ].
        -- apply ParseUint_Ok in Hu. destruct Hu as (Hne & Hds & -> & Hr).
           destruct (Z.geb_spec (decimalValue (c :: rest)) (2 ^ 63)); [ discriminate | ].
           intros Hv. injection Hv as <-.
           assert (Hin : in_int64 (decimalValue (c :: rest)))
             by (unfold in_int64, minInt64, maxInt64; lia).
           rewrite int64_id by assumption.
           split; [ now constructor | assumption ].
        -- discriminate.
  - intros [Hlit Hin]. unfold in_int64, minInt64, maxInt64 in Hin.
    destruct Hlit as [ ds Hne Hds | ds Hne Hds | ds Hne Hds ];
      pose proof (decimalValue_nonneg ds Hds) as H0.
    + destruct ds as [ | c rest ]; [ congruence | ].
      unfold ParseInt.
      destruct (isDigit_not_sign c) as [-> ->]; [ now inversion Hds | ].
      cbn [orb negb andb].
      rewrite ParseUint_complete by (try assumption; unfold maxVal; lia).
      destruct (Z.geb_spec (decimalValue (c :: rest)) (2 ^ 63)); [ lia | ].
      rewrite int64_id by (unfold in_int64, minInt64, maxInt64; lia).
      reflexivity.
    + unfold ParseInt.
      change (Ascii.eqb "+" "-") with false.
      change (Ascii.eqb "+" "+") with true.
      cbn [orb negb andb].
      rewrite ParseUint_complete by (try assumption; unfold maxVal; lia).
      destruct (Z.geb_spec (decimalValue ds) (2 ^ 63)); [ lia | ].
      rewrite int64_id by (unfold in_int64, minInt64, maxInt64; lia).
      reflexivity.
    + unfold ParseInt.
      change (Ascii.eqb "-" "-") with true.
      change (Ascii.eqb "-" "+") with false.
      cbn [orb negb andb].
      rewrite ParseUint_complete by (try assumption; unfold maxVal; lia).
      destruct (Z.gtb_spec (decimalValue ds) (2 ^ 63)); [ lia | ].
      rewrite int64_neg by lia.
      reflexivity.
Qed.

Lemma uint_digitChar (d : Z) : 0 <= d < 10 -> uint (digitChar d) = 48 + d.
Proof. intros H. unfold digitChar. apply uint_byte. lia. Qed.

Lemma decimalValue_snoc (ds : list ascii) (c : ascii) :
  decimalValue (ds ++ [c]) = decimalValue ds * 10 + (uint c - 48).
Proof. unfold decimalValue, decimalFrom. now rewrite fold_left_app. Qed.

Lemma fmtDigits_spec (fuel : nat) (u : Z) (buf : list ascii) :
  0 <= u < 10 ^ Z.of_nat (S fuel) ->
  exists ds, fmtDigits (S fuel) u buf = ds ++ buf
             /\ ds <> [] /\ Forall isDigit ds /\ decimalValue ds = u.
Proof.
  revert u buf. induction fuel as [ | fuel IH ]; intros u buf Hu.
  - change (10 ^ Z.of_nat 1) with 10 in Hu. cbn [fmtDigits].
    destruct (Z.geb_spec u 10); [ lia | ].
    exists [digitChar u]. repeat split; [ discriminate | | ].
    + constructor; [ | constructor ]. unfold isDigit.
      rewrite uint_digitChar; lia.
    + unfold decimalValue, decimalFrom. cbn [fold_left]. unfold decimalStep.
      rewrite uint_digitChar; lia.
  - cbn [fmtDigits]. fold (fmtDigits (S fuel)).
    rewrite Nat2Z.inj_succ, Z.pow_succ_r in Hu by lia.
    destruct (Z.geb_spec u 10) as [ Hge | Hlt ].
    + destruct (IH (u / 10) (digitChar (u - u / 10 * 10) :: buf))
        as (ds & Heq & Hne & Hds & Hval).
      { split; [ apply Z.div_pos; lia | apply Z.div_lt_upper_bound; lia ]. }
      assert (Hd : 0 <= u - u / 10 * 10 < 10)
        by (pose proof (Z.div_mod u 10); pose proof (Z.mod_pos_bound u 10); lia).
      exists (ds ++ [digitChar (u - u / 10 * 10)]).
      repeat split.
      * cbn [fmtDigits] in Heq. rewrite Heq, <- app_assoc. reflexivity.
      * destruct ds; discriminate.
      * apply Forall_app. split; [ assumption | ].
        constructor; [ | constructor ]. unfold isDigit.
        rewrite uint_digitChar; lia.
      * rewrite decimalValue_snoc, Hval, uint_digitChar; lia.
    + exists [digitChar u]. repeat split; [ discriminate | | ].
      * constructor; [ | constructor ]. unfold isDigit.
        rewrite uint_digitChar; lia.
      * unfold decimalValue, decimalFrom. cbn [fold_left]. unfold decimalStep.
        rewrite uint_digitChar; lia.
Qed.

(** [%d] prints a literal of its argument. *)
Lemma fmtInt64_literal (v : Z) : in_int64 v -> IntLiteral (fmtInt64 v) v.
Proof.
  unfold in_int64, minInt64, maxInt64, fmtInt64, uint64. intros Hv.
  assert (Hpow : 2 ^ 64 < 10 ^ Z.of_nat 20) by reflexivity.
  destruct (Z.ltb_spec v 0) as [ Hneg | Hpos ].
  - rewrite Z.mod_small by lia.
    destruct (fmtDigits_spec 19 (- v) []) as (ds & Heq & Hne & Hds & Hval);
      [ lia | ].
    rewrite Heq, app_nil_r.
    replace (IntLiteral ("-"%char :: ds) v)
      with (IntLiteral ("-"%char :: ds) (- decimalValue ds)) by (f_equal; lia).
    now constructor.
  - rewrite Z.mod_small by lia.
    destruct (fmtDigits_spec 19 v []) as (ds & Heq & Hne & Hds & Hval);
      [ lia | ].
    rewrite Heq, app_nil_r.
    replace (IntLiteral ds v) with (IntLiteral ds (decimalValue ds))
      by (f_equal; lia).
    now constructor.
Qed.

(** Parsing what [%d] printed gives the number back. *)
Theorem ParseInt_fmtInt64 (v : Z) : in_int64 v -> ParseInt (fmtInt64 v) = Ok v.
Proof.
  intros Hv. apply ParseInt_Ok_iff. split; [ now apply fmtInt64_literal | assumption ].
Qed.

(** A literal holds no [|]. *)
Lemma IntLiteral_no_pipe (s : gostring) (v : Z) :
  IntLiteral s v -> ~ In pipe s.
Proof.
  assert (Hd : forall ds, Forall isDigit ds -> ~ In pipe ds).
  { intros ds Hds Hin. rewrite Forall_forall in Hds.
    apply Hds in Hin. unfold isDigit in Hin. cbn in Hin. lia. }
  intros [ ds _ Hds | ds _ Hds | ds _ Hds ]; [ now apply Hd | | ];
    (intros [ Heq | Hin ]; [ discriminate | now apply (Hd ds) ]).
Qed.

End StrconvFacts.

(** ** [Split] *)

Lemma Split_nonempty (s : gostring) (sep : ascii) : Split s sep <> [].
Proof.
  destruct s as [ | c s ]; cbn; [ discriminate | ].
  destruct (Ascii.eqb c sep); [ discriminate | ].
  destruct (Split s sep); discriminate.
Qed.

(** A string without the separator is one field. *)
Lemma Split_no_sep (s : gostring) (sep : ascii) : ~ In sep s -> Split s sep = [s].
Proof.
  induction s as [ | c s IH ]; intros Hnot; cbn; [ reflexivity | ].
  destruct (Ascii.eqb_spec c sep) as [ -> | Hne ]; [ exfalso; apply Hnot; now left | ].
  rewrite IH; [ reflexivity | ]. intros Hin. apply Hnot. now right.
Qed.

(** The first separator ends the first field. *)
Lemma Split_app (a rest : gostring) (sep : ascii) :
  ~ In sep a -> Split (a ++ sep :: rest) sep = a :: Split rest sep.
Proof.
  induction a as [ | c a IH ]; intros Hnot; cbn.
  - now rewrite Ascii.eqb_refl.
  - destruct (Ascii.eqb_spec c sep) as [ -> | Hne ]; [ exfalso; apply Hnot; now left | ].
    rewrite IH; [ reflexivity | ]. intros Hin. apply Hnot. now right.
Qed.

(** There is one field more than there are separators. *)
Lemma Split_length (s : gostring) (sep : ascii) :
  length (Split s sep) = S (count_occ ascii_dec s sep).
Proof.
  induction s as [ | c s IH ]; cbn [Split count_occ]; [ reflexivity | ].
  destruct (Ascii.eqb_spec c sep) as [ -> | Hne ].
  - destruct (ascii_dec sep sep) as [ _ | Hne ]; [ | congruence ].
    cbn [length]. now rewrite IH.
  - destruct (ascii_dec c sep) as [ Heq | _ ]; [ congruence | ].
    destruct (Split s sep) as [ | f fs ] eqn:Hs.
    + now apply Split_nonempty in Hs.
    + cbn [length] in *. exact IH.
Qed.

(** ** The cursor codec *)

Lemma time_Unix_whole (s : Z) : time_Unix s 0 = mkTime s 0.
Proof. reflexivity. Qed.

Lemma fmtDigits_digits (fuel : nat) (u : Z) (buf : list ascii) :
  0 <= u -> Forall Strconv.isDigit buf ->
  Forall Strconv.isDigit (Strconv.fmtDigits fuel u buf).
Proof.
  revert u buf. induction fuel as [ | fuel IH ]; intros u buf Hu Hbuf;
    cbn [Strconv.fmtDigits]; [ assumption | ].
  assert (Hd : 0 <= u - u / 10 * 10 < 10)
    by (pose proof (Z.div_mod u 10); pose proof (Z.mod_pos_bound u 10); lia).
  destruct (Z.geb_spec u 10) as [ Hge | Hlt ].
  - apply IH; [ apply Z.div_pos; lia | ].
    constructor; [ | assumption ].
    unfold Strconv.isDigit. rewrite StrconvFacts.uint_digitChar; lia.
  - constructor; [ | assumption ].
    unfold Strconv.isDigit. rewrite StrconvFacts.uint_digitChar; lia.
Qed.

(** [%d] never prints the delimiter. *)
Lemma fmtInt64_no_pipe (v : Z) : ~ In pipe (Strconv.fmtInt64 v).
Proof.
  assert (Hd : forall u, 0 <= u -> ~ In pipe (Strconv.fmtDigits 20 u [])).
  { intros u Hu Hin.
    pose proof (fmtDigits_digits 20 u [] Hu (Forall_nil _)) as Hds.
    rewrite Forall_forall in Hds. apply Hds in Hin.
    unfold Strconv.isDigit in Hin. cbn in Hin. lia. }
  unfold Strconv.fmtInt64, uint64.
  destruct (v <? 0).
  - intros [ Heq | Hin ]; [ discriminate | ].
    revert Hin. apply Hd. apply Z.mod_pos_bound. lia.
  - apply Hd. apply Z.mod_pos_bound. lia.
Qed.

(** The fields of the token data when the keys hold no delimiter. *)
Lemma Split_tokenData (ty id num : gostring) :
  ~ In pipe ty -> ~ In pipe id -> ~ In pipe num ->
  Split (ty ++ [pipe] ++ id ++ [pipe] ++ num) pipe = [ty; id; num].
Proof.
  intros Hty Hid Hnum. cbn [app].
  rewrite Split_app by assumption.
  rewrite Split_app by assumption.
  now rewrite Split_no_sep by assumption.
Qed.

(** What [decodeContinuationToken] does once the base64 layer is peeled. *)
Lemma decode_encode_unfold (ty id : gostring) (t : Time) :
  decodeContinuationToken (encodeContinuationToken ty id t)
  = match Split (ty ++ [pipe] ++ id ++ [pipe] ++ Strconv.fmtInt64 (Time_Unix t)) pipe with
    | [resourceType; resourceID; part2] =>
        match Strconv.ParseInt part2 with
        | Err err => Err (InvalidTokenTimestamp err)
        | Ok timestamp => Ok (resourceType, resourceID, time_Unix timestamp 0)
        end
    | _ => Err InvalidTokenFormat
    end.
Proof.
  unfold decodeContinuationToken, encodeContinuationToken.
  now rewrite Base64Facts.DecodeString_EncodeToString.
Qed.

(** Round trip of the codec on keys without the delimiter. *)
Lemma decode_encode (ty id : gostring) (t : Time) :
  ~ In pipe ty -> ~ In pipe id -> in_int64 (Time_Unix t) ->
  decodeContinuationToken (encodeContinuationToken ty id t)
  = Ok (ty, id, mkTime (sec t) 0).
Proof.
  intros Hty Hid Ht. rewrite decode_encode_unfold.
  rewrite Split_tokenData by (try assumption; apply fmtInt64_no_pipe).
  now rewrite StrconvFacts.ParseInt_fmtInt64 by assumption.
Qed.

(** A delimiter inside a key adds a field. *)
Lemma decode_encode_pipe (ty id : gostring) (t : Time) :
  In pipe ty \/ In pipe id ->
  decodeContinuationToken (encodeContinuationToken ty id t) = Err InvalidTokenFormat.
Proof.
  intros Hin. rewrite decode_encode_unfold.
  set (data := ty ++ [pipe] ++ id ++ [pipe] ++ Strconv.fmtInt64 (Time_Unix t)).
  assert (Hlen : (length (Split data pipe) >= 4)%nat).
  { rewrite Split_length. subst data.
    rewrite !count_occ_app. cbn [count_occ].
    destruct (ascii_dec pipe pipe) as [ _ | Hne ]; [ | congruence ].
    destruct Hin as [ Hin | Hin ];
      apply (count_occ_In ascii_dec) in Hin; lia. }
  destruct (Split data pipe) as [ | a [ | b [ | c [ | d l ] ] ] ];
    try reflexivity.
  cbn in Hlen. lia.
Qed.

(** ** The orders *)

Lemma st_asym {A} (lt : A -> A -> Prop) `{StrictTotal A lt} (a b : A) :
  lt a b -> ~ lt b a.
Proof. intros Hab Hba. apply (st_irrefl a). now apply (st_trans a b a). Qed.

#[export] Instance time_lt_strict : StrictTotal time_lt.
Proof.
  split; unfold time_lt.
  - intros a. lia.
  - intros a b c. lia.
  - intros [sa na] [sb nb]. cbn.
    destruct (Z.lt_total sa sb) as [ | [ -> | ] ]; [ lia | | lia ].
    destruct (Z.lt_total na nb) as [ | [ -> | ] ]; auto; lia.
Qed.

#[export] Instance str_lt_strict : StrictTotal str_lt.
Proof.
  split.
  - intros a Ha. induction a as [ | x a IH ]; inversion Ha; subst; [ lia | auto ].
  - intros a b c Hab. revert c.
    induction Hab as [ y b | x a y b Hxy | x a b Hab IH ]; intros c Hbc;
      inversion Hbc; subst.
    + constructor.
    + constructor.
    + apply str_lt_head. lia.
    + now apply str_lt_head.
    + now apply str_lt_head.
    + apply str_lt_tail. now apply IH.
  - induction a as [ | x a IH ]; intros [ | y b ].
    + now right; left.
    + left. constructor.
    + right; right. constructor.
    + destruct (Z.lt_total (uint x) (uint y)) as [ Hlt | [ Heq | Hgt ] ].
      * left. now apply str_lt_head.
      * apply uint_inj in Heq. subst y.
        destruct (IH b) as [ Hlt | [ -> | Hgt ] ].
        -- left. now apply str_lt_tail.
        -- now right; left.
        -- right; right. now apply str_lt_tail.
      * right; right. now apply str_lt_head.
Qed.

#[export] Instance key_lt_strict : StrictTotal key_lt.
Proof.
  split.
  - intros [[t ty] id] H. cbn in H.
    destruct H as [ H | [_ [ H | [_ H] ] ] ];
      [ now apply (st_irrefl t) | now apply (st_irrefl ty) | now apply (st_irrefl id) ].
  - intros [[t1 ty1] id1] [[t2 ty2] id2] [[t3 ty3] id3]. cbn.
    intros [ H12 | [-> H12] ] [ H23 | [-> H23] ].
    + left. now apply (st_trans t1 t2 t3).
    + now left.
    + now left.
    + right. split; [ reflexivity | ].
      destruct H12 as [ H12 | [-> H12] ], H23 as [ H23 | [-> H23] ].
      * left. now apply (st_trans ty1 ty2 ty3).
      * now left.
      * now left.
      * right. split; [ reflexivity | ]. now apply (st_trans id1 id2 id3).
  - intros [[t1 ty1] id1] [[t2 ty2] id2]. cbn.
    destruct (st_total t1 t2) as [ | [ -> | ] ];
      [ now left; left | | now right; right; left ].
    destruct (st_total ty1 ty2) as [ | [ -> | ] ];
      [ left; right; auto | | right; right; right; auto ].
    destruct (st_total id1 id2) as [ | [ -> | ] ];
      [ left; right; auto | now right; left | right; right; right; auto ].
Qed.

Lemma time_ltb_spec (a b : Time) : time_ltb a b = true <-> time_lt a b.
Proof. unfold time_ltb, time_lt. lia. Qed.

Lemma time_eqb_spec (a b : Time) : time_eqb a b = true <-> a = b.
Proof.
  unfold time_eqb. destruct a as [sa na], b as [sb nb]. cbn. split.
  - intros H. f_equal; lia.
  - intros H. injection H as -> ->. lia.
Qed.

Lemma str_ltb_spec (a b : gostring) : str_ltb a b = true <-> str_lt a b.
Proof.
  revert b. induction a as [ | x a IH ]; intros [ | y b ]; cbn.
  - split; [ discriminate | inversion 1 ].
  - split; [ constructor | reflexivity ].
  - split; [ discriminate | inversion 1 ].
  - rewrite orb_true_iff, andb_true_iff, IH, Z.ltb_lt, Z.eqb_eq. split.
    + intros [ Hlt | [Heq Hab] ]; [ now apply str_lt_head | ].
      apply uint_inj in Heq. subst y. now apply str_lt_tail.
    + inversion 1; subst; auto.
Qed.

Lemma str_eqb_spec (a b : gostring) : str_eqb a b = true <-> a = b.
Proof.
  revert b. induction a as [ | x a IH ]; intros [ | y b ]; cbn;
    try (split; [ reflexivity | reflexivity ]);
    try (split; discriminate).
  rewrite andb_true_iff, IH, Ascii.eqb_eq. split.
  - now intros [-> ->].
  - intros H. injection H as -> ->. auto.
Qed.

(** The WHERE clause, with one cursor bound to its placeholders, selects
    the rows below the cursor. *)
Lemma whereSeek_spec (t : Time) (ty id : gostring) (r : Record_) :
  whereSeek t t ty t ty id r = true <-> key_lt (keyOf r) (t, ty, id).
Proof.
  unfold whereSeek, seek1, seek2, seek3, keyOf, key_lt.
  rewrite !orb_true_iff, !andb_true_iff.
  rewrite (time_ltb_spec (CreatedAt r) t), (time_eqb_spec (CreatedAt r) t),
    (str_ltb_spec (ResourceType r) ty), (str_ltb_spec (ResourceID r) id),
    (str_eqb_spec (ResourceType r) ty).
  tauto.
Qed.

(** The ORDER BY clause places [a] before [b] when [b]'s tuple is below. *)
Lemma orderBefore_spec (a b : Record_) :
  orderBefore a b = true <-> key_lt (keyOf b) (keyOf a).
Proof.
  unfold orderBefore, keyOf, key_lt.
  repeat (rewrite orb_true_iff || rewrite andb_true_iff).
  rewrite (time_ltb_spec (CreatedAt b) (CreatedAt a)),
    (time_eqb_spec (CreatedAt b) (CreatedAt a)),
    (str_ltb_spec (ResourceType b) (ResourceType a)),
    (str_ltb_spec (ResourceID b) (ResourceID a)),
    (str_eqb_spec (ResourceType b) (ResourceType a)).
  tauto.
Qed.

(** ** Sorting the table *)
Section Sorting.

Lemma before_irrefl (a : Record_) : ~ before a a.
Proof. apply (st_irrefl (keyOf a)). Qed.

Lemma before_trans (a b c : Record_) : before a b -> before b c -> before a c.
Proof. unfold before. intros Hab Hbc. now apply (st_trans _ (keyOf b)). Qed.

Lemma before_asym (a b : Record_) : before a b -> ~ before b a.
Proof. intros Hab Hba. apply (before_irrefl a). now apply (before_trans a b a). Qed.

Lemma insertDesc_Permutation (r : Record_) (l : list Record_) :
  Permutation (r :: l) (insertDesc r l).
Proof.
  induction l as [ | x l IH ]; cbn; [ reflexivity | ].
  destruct (orderBefore x r); [ | reflexivity ].
  rewrite perm_swap. now apply perm_skip.
Qed.

Lemma orderByDesc_Permutation (l : list Record_) : Permutation l (orderByDesc l).
Proof.
  induction l as [ | r l IH ]; cbn; [ reflexivity | ].
  rewrite <- insertDesc_Permutation. now apply perm_skip.
Qed.

Lemma insertDesc_sorted (r : Record_) (l : list Record_) :
  StronglySorted before l -> ~ In (keyOf r) (map keyOf l) ->
  StronglySorted before (insertDesc r l).
Proof.
  induction 1 as [ | x l Hl IH Hx ]; intros Hnew; cbn.
  - repeat constructor.
  - destruct (orderBefore x r) eqn:Hord.
    + apply orderBefore_spec in Hord.
      constructor.
      * apply IH. intros Hin. apply Hnew. now right.
      * rewrite <- insertDesc_Permutation. now constructor.
    + assert (Hrx : before r x).
      { destruct (st_total (keyOf r) (keyOf x)) as [ Hlt | [ Heq | Hgt ] ].
        - apply orderBefore_spec in Hlt. congruence.
        - exfalso. apply Hnew. left. now symmetry.
        - exact Hgt. }
      constructor; [ now constructor | ].
      constructor; [ assumption | ].
      eapply Forall_impl; [ | exact Hx ].
      intros y Hxy. now apply (before_trans r x y).
Qed.

Lemma orderByDesc_sorted (l : list Record_) :
  NoDup (map keyOf l) -> StronglySorted before (orderByDesc l).
Proof.
  induction l as [ | r l IH ]; cbn; intros Hnd; [ constructor | ].
  inversion Hnd as [ | k ks Hnotin Hnd' ]; subst.
  apply insertDesc_sorted; [ now apply IH | ].
  intros Hin. apply Hnotin.
  eapply Permutation_in; [ | exact Hin ].
  apply Permutation_map. symmetry. apply orderByDesc_Permutation.
Qed.

(** A set of rows has one descending arrangement. *)
Lemma sorted_unique (l1 l2 : list Record_) :
  StronglySorted before l1 -> StronglySorted before l2 ->
  Permutation l1 l2 -> l1 = l2.
Proof.
  intros H1. revert l2.
  induction H1 as [ | a l1 Hl1 IH Ha ]; intros l2 H2 Hperm.
  - apply Permutation_nil in Hperm. now subst.
  - destruct H2 as [ | b l2 Hl2 Hb ].
    + symmetry in Hperm. now apply Permutation_nil in Hperm.
    + assert (Hab : a = b).
      { assert (Hina : In a (b :: l2))
          by (eapply Permutation_in; [ exact Hperm | now left ]).
        assert (Hinb : In b (a :: l1))
          by (eapply Permutation_in; [ symmetry; exact Hperm | now left ]).
        destruct Hina as [ | Hina ]; [ now subst | ].
        destruct Hinb as [ | Hinb ]; [ now subst | ].
        rewrite Forall_forall in Ha, Hb.
        exfalso. apply (before_asym a b); auto. }
      subst b. f_equal. apply IH; [ assumption | ].
      now apply Permutation_cons_inv in Hperm.
Qed.

Lemma filter_Permutation (f : Record_ -> bool) (l l' : list Record_) :
  Permutation l l' -> Permutation (filter f l) (filter f l').
Proof.
  induction 1 as [ | x l l' _ IH | x y l | l l' l'' _ IH1 _ IH2 ]; cbn.
  - constructor.
  - destruct (f x); [ now apply perm_skip | assumption ].
  - destruct (f x), (f y); try reflexivity. apply perm_swap.
  - now transitivity (filter f l').
Qed.

Lemma filter_sorted (f : Record_ -> bool) (l : list Record_) :
  StronglySorted before l -> StronglySorted before (filter f l).
Proof.
  induction 1 as [ | x l Hl IH Hx ]; cbn; [ constructor | ].
  destruct (f x); [ | assumption ].
  constructor; [ assumption | ].
  rewrite Forall_forall in *. intros y Hy.
  apply filter_In in Hy. now apply Hx.
Qed.

Lemma filter_NoDup_keys (f : Record_ -> bool) (l : list Record_) :
  NoDup (map keyOf l) -> NoDup (map keyOf (filter f l)).
Proof.
  induction l as [ | x l IH ]; cbn; intros Hnd; [ constructor | ].
  inversion Hnd as [ | k ks Hnotin Hnd' ]; subst.
  destruct (f x); [ | now apply IH ].
  cbn. constructor; [ | now apply IH ].
  intros Hin. apply Hnotin.
  apply in_map_iff in Hin. destruct Hin as (y & Hy & Hin).
  apply filter_In in Hin. apply in_map_iff. exists y. tauto.
Qed.

(** WHERE before ORDER BY selects what ORDER BY before WHERE does. *)
Lemma orderByDesc_filter (f : Record_ -> bool) (l : list Record_) :
  NoDup (map keyOf l) ->
  orderByDesc (filter f l) = filter f (orderByDesc l).
Proof.
  intros Hnd. apply sorted_unique.
  - apply orderByDesc_sorted. now apply filter_NoDup_keys.
  - apply filter_sorted. now apply orderByDesc_sorted.
  - rewrite <- orderByDesc_Permutation.
    apply filter_Permutation, orderByDesc_Permutation.
Qed.

Lemma sorted_app_inv (l1 l2 : list Record_) :
  StronglySorted before (l1 ++ l2) ->
  StronglySorted before l1 /\ StronglySorted before l2
  /\ (forall x y, In x l1 -> In y l2 -> before x y).
Proof.
  induction l1 as [ | a l1 IH ]; cbn; intros H.
  - repeat split; [ constructor | assumption | intros x y [] ].
  - apply StronglySorted_inv in H. destruct H as [H Ha].
    destruct (IH H) as (H1 & H2 & H12).
    rewrite Forall_forall in Ha.
    repeat split; [ | assumption | ].
    + constructor; [ assumption | ].
      rewrite Forall_forall. intros y Hy. apply Ha, in_or_app. now left.
    + intros x y [ <- | Hx ] Hy; [ | now apply H12 ].
      apply Ha, in_or_app. now right.
Qed.

Lemma filter_all (f : Record_ -> bool) (l : list Record_) :
  (forall x, In x l -> f x = true) -> filter f l = l.
Proof.
  induction l as [ | x l IH ]; cbn; intros H; [ reflexivity | ].
  rewrite (H x) by now left. f_equal. apply IH. intros y Hy. apply H. now right.
Qed.

Lemma filter_none (f : Record_ -> bool) (l : list Record_) :
  (forall x, In x l -> f x = false) -> filter f l = [].
Proof.
  induction l as [ | x l IH ]; cbn; intros H; [ reflexivity | ].
  rewrite (H x) by now left. apply IH. intros y Hy. apply H. now right.
Qed.

(** In a descending list the rows below a row are the rows after it. *)
Lemma filter_below (done rest : list Record_) (c : Record_) :
  StronglySorted before (done ++ c :: rest) ->
  filter (fun r => whereSeek (CreatedAt c) (CreatedAt c) (ResourceType c)
                     (CreatedAt c) (ResourceType c) (ResourceID c) r)
         (done ++ c :: rest)
  = rest.
Proof.
  intros Hs.
  assert (Hf : forall r,
    whereSeek (CreatedAt c) (CreatedAt c) (ResourceType c)
      (CreatedAt c) (ResourceType c) (ResourceID c) r = true <-> before c r).
  { intros r. apply whereSeek_spec. }
  destruct (sorted_app_inv _ _ Hs) as (_ & Hc & Hdone).
  apply StronglySorted_inv in Hc. destruct Hc as [_ Hrest].
  rewrite Forall_forall in Hrest.
  rewrite filter_app. cbn [filter].
  destruct (whereSeek _ _ _ _ _ _ c) eqn:Hcc.
  { apply Hf in Hcc. now apply before_irrefl in Hcc. }
  rewrite filter_none, filter_all.
  - reflexivity.
  - intros x Hx. apply Hf. now apply Hrest.
  - intros x Hx. apply not_true_iff_false. rewrite Hf.
    apply before_asym. apply Hdone; [ assumption | now left ].
Qed.

End Sorting.

(** ** The paginator *)

Lemma EncodeToString_nonempty (a : ascii) (l : list ascii) :
  Base64.EncodeToString (a :: l) <> [].
Proof. destruct l as [ | b [ | c l ] ]; discriminate. Qed.

Lemma encodeContinuationToken_nonempty (ty id : gostring) (t : Time) :
  encodeContinuationToken ty id t <> [].
Proof.
  unfold encodeContinuationToken.
  destruct ty as [ | a ty ]; apply EncodeToString_nonempty.
Qed.

Lemma normalized_pos (pageSize : Z) : 0 < normalized pageSize.
Proof.
  unfold normalized, DefaultPageSize. destruct (Z.leb_spec pageSize 0); lia.
Qed.

Lemma firstn_snoc_nth (k : nat) (l : list Record_) (d : Record_) :
  (k < length l)%nat -> firstn (S k) l = firstn k l ++ [nth k l d].
Proof.
  revert l. induction k as [ | k IH ]; intros [ | x l ] Hk; cbn in *; try lia.
  - reflexivity.
  - f_equal. apply IH. lia.
Qed.

Lemma nth_firstn_lt (k n : nat) (l : list Record_) (d : Record_) :
  (k < n)%nat -> nth k (firstn n l) d = nth k l d.
Proof.
  revert n l. induction k as [ | k IH ]; intros [ | n ] [ | x l ] Hk; cbn; try lia;
    try reflexivity.
  apply IH. lia.
Qed.

(** More rows than the page holds: the page is cut and the token is made
    from its last row. *)
Lemma pageOf_more (records : list Record_) (N : Z) :
  0 < N -> Z.of_nat (length records) > N ->
  exists last,
    nth_error records (Z.to_nat (N - 1)) = Some last
    /\ pageOf records N
       = mkPaginatedResult (firstn (Z.to_nat N) records) (Some (tokenOf last)).
Proof.
  intros HN Hlen. unfold pageOf.
  destruct (Z.gtb_spec (Z.of_nat (length records)) N); [ | lia ].
  exists (nth (Z.to_nat (N - 1)) records zeroRecord). split; [ | reflexivity ].
  apply nth_error_nth'. lia.
Qed.

(** No more rows than the page holds: the terminal page. *)
Lemma pageOf_last (records : list Record_) (N : Z) :
  Z.of_nat (length records) <= N ->
  pageOf records N = mkPaginatedResult records None.
Proof.
  intros Hlen. unfold pageOf.
  destruct (Z.gtb_spec (Z.of_nat (length records)) N); [ lia | reflexivity ].
Qed.

(** A successful call sent one query and built its page from the reply. *)
Lemma GetPaginated_Ok (db : DB) (token : gostring) (pageSize : Z)
  (qs : list Query) (page : PaginatedResult) :
  GetPaginated db token pageSize = (qs, Ok page) ->
  exists q records,
    qs = [q] /\ db q = Ok records
    /\ limitOf q = int64 (normalized pageSize + 1)
    /\ page = pageOf records (normalized pageSize).
Proof.
  unfold GetPaginated. fold (normalized pageSize).
  destruct token as [ | c token ].
  - destruct (db _) as [ records | e ] eqn:Hdb; [ | discriminate ].
    intros H. injection H as <- <-.
    eexists _, records.
    split; [ reflexivity | split; [ exact Hdb | split; reflexivity ] ].
  - destruct (decodeContinuationToken (c :: token)) as [ [[ty id] t] | e ];
      [ | discriminate ].
    destruct (db _) as [ records | e ] eqn:Hdb; [ | discriminate ].
    intros H. injection H as <- <-.
    eexists _, records.
    split; [ reflexivity | split; [ exact Hdb | split; reflexivity ] ].
Qed.

(** ** Traversal of a table *)
Section Traversal.

Variable table : list Record_.
Variable N : Z.

Hypothesis unique_keys : NoDup (map keyOf table).
Hypothesis rows_safe : Forall cursorSafe table.
Hypothesis N_pos : 0 < N.
Hypothesis N_bound : N < maxInt64.

Let n : nat := Z.to_nat N.

Lemma limit_plain : int64 (normalized N + 1) = N + 1.
Proof.
  unfold normalized. destruct (Z.leb_spec N 0); [ lia | ].
  apply int64_id. unfold in_int64, minInt64, maxInt64 in *. lia.
Qed.

Lemma limitRows_Ok (l : list Record_) : limitRows (N + 1) l = Ok (firstn (S n) l).
Proof.
  unfold limitRows. destruct (Z.ltb_spec (N + 1) 0); [ lia | ].
  do 2 f_equal. subst n. lia.
Qed.

(** The first page is cut from the whole table in descending order. *)
Lemma GetPaginated_first :
  GetPaginated (tableDB table) [] N
  = ([SelectFirstPage (N + 1)], Ok (pageOf (firstn (S n) (orderByDesc table)) N)).
Proof.
  unfold GetPaginated. fold (normalized N). rewrite limit_plain.
  cbn [tableDB]. rewrite limitRows_Ok.
  unfold normalized. destruct (Z.leb_spec N 0); [ lia | reflexivity ].
Qed.

(** The token of a row asks for the rows after it. *)
Lemma GetPaginated_seek (done rest : list Record_) (c : Record_) :
  orderByDesc table = done ++ c :: rest ->
  snd (GetPaginated (tableDB table) (tokenOf c) N)
  = Ok (pageOf (firstn (S n) rest) N).
Proof.
  intros Hsplit.
  assert (Hc : cursorSafe c).
  { rewrite Forall_forall in rows_safe. apply rows_safe.
    eapply Permutation_in; [ symmetry; apply orderByDesc_Permutation | ].
    rewrite Hsplit. apply in_or_app. right. now left. }
  destruct Hc as (Hty & Hid & [Hsec _] & Hwhole).
  unfold GetPaginated. fold (normalized N). rewrite limit_plain.
  pose proof (encodeContinuationToken_nonempty
                (ResourceType c) (ResourceID c) (CreatedAt c)) as Hne.
  fold (tokenOf c) in Hne.
  destruct (tokenOf c) as [ | x tok ] eqn:Htok; [ congruence | ].
  rewrite <- Htok. unfold tokenOf.
  rewrite decode_encode by assumption.
  replace (mkTime (sec (CreatedAt c)) 0) with (CreatedAt c)
    by (unfold whole_second in Hwhole; destruct (CreatedAt c); cbn in *; now subst).
  cbn [tableDB]. rewrite limitRows_Ok.
  rewrite orderByDesc_filter by assumption.
  rewrite Hsplit, filter_below by (rewrite <- Hsplit; now apply orderByDesc_sorted).
  cbn [snd]. unfold normalized. destruct (Z.leb_spec N 0); [ lia | reflexivity ].
Qed.

Lemma GetPaginated_position (rest : list Record_) (token : gostring) :
  position table rest token ->
  snd (GetPaginated (tableDB table) token N) = Ok (pageOf (firstn (S n) rest) N).
Proof.
  intros [ Hstart | done c Hsplit ].
  - rewrite GetPaginated_first, Hstart. reflexivity.
  - now apply GetPaginated_seek with done.
Qed.

Lemma position_advance (rest : list Record_) (token : gostring) :
  position table rest token -> (n < length rest)%nat ->
  position table (skipn n rest) (tokenOf (nth (n - 1) rest zeroRecord)).
Proof.
  intros Hpos Hlen.
  assert (Hn : (0 < n)%nat) by (subst n; lia).
  assert (Hcut : rest = firstn (n - 1) rest
                        ++ nth (n - 1) rest zeroRecord :: skipn n rest).
  { rewrite <- (firstn_skipn n rest) at 1.
    replace n with (S (n - 1)) at 1 by lia.
    rewrite (firstn_snoc_nth _ _ zeroRecord) by lia.
    now rewrite <- app_assoc. }
  destruct Hpos as [ Hstart | done c Hsplit ].
  - apply after_row with (firstn (n - 1) rest). now rewrite Hstart.
  - apply after_row with (done ++ c :: firstn (n - 1) rest).
    rewrite Hsplit, <- app_assoc. cbn [app]. now rewrite <- Hcut.
Qed.

(** From any position the loop returns the rows still to come. *)
Lemma traverse_position (fuel : nat) :
  forall rest token,
    position table rest token -> (length rest < fuel)%nat ->
    traverse fuel (tableDB table) token N = Some rest.
Proof.
  induction fuel as [ | fuel IH ]; intros rest token Hpos Hfuel; [ lia | ].
  assert (Hn : (0 < n)%nat) by (subst n; lia).
  assert (HnN : Z.of_nat n = N) by (subst n; lia).
  cbn [traverse]. rewrite (GetPaginated_position rest token Hpos).
  destruct (Nat.le_gt_cases (length rest) n) as [ Hle | Hgt ].
  - rewrite firstn_all2 by lia.
    rewrite pageOf_last by lia. reflexivity.
  - destruct (pageOf_more (firstn (S n) rest) N N_pos)
      as (last & Hlast & ->).
    { rewrite length_firstn. lia. }
    cbn [NextContinuationToken Records].
    apply (nth_error_nth _ _ zeroRecord) in Hlast.
    replace (Z.to_nat (N - 1)) with (n - 1)%nat in Hlast by (subst n; lia).
    rewrite nth_firstn_lt in Hlast by lia. subst last.
    rewrite (IH (skipn n rest)).
    + fold n. rewrite firstn_firstn, Nat.min_l by lia.
      now rewrite firstn_skipn.
    + now apply position_advance with token.
    + rewrite length_skipn. lia.
Qed.

(** Following the tokens from the empty one returns the table in
    descending order. *)
Lemma traverse_table (fuel : nat) :
  (length table < fuel)%nat ->
  traverse fuel (tableDB table) [] N = Some (orderByDesc table).
Proof.
  intros Hfuel. apply traverse_position; [ now constructor | ].
  now rewrite <- (Permutation_length (orderByDesc_Permutation table)).
Qed.

End Traversal.

(** * The repository tests, replayed *)

Example readme_token :
  encodeContinuationToken (str "task") (str "task-4567") (mkTime 1705398400 0)
  = str "dGFza3x0YXNrLTQ1Njd8MTcwNTM5ODQwMA==".
Proof. reflexivity. Qed.

Example TestEncodeContinuationToken :
  decodeContinuationToken
    (encodeContinuationToken (str "user") (str "user-123") (time_Unix 1234567890 0))
  = Ok (str "user", str "user-123", time_Unix 1234567890 0).
Proof. reflexivity. Qed.

Example TestDecodeContinuationToken_InvalidBase64 :
  decodeContinuationToken (str "invalid-base64!") = Err (InvalidToken Base64.CorruptInput).
Proof. reflexivity. Qed.

Example TestDecodeContinuationToken_InvalidFormat :
  decodeContinuationToken (Base64.EncodeToString (str "user|only-two-parts"))
  = Err InvalidTokenFormat.
Proof. reflexivity. Qed.

Example TestGetPaginated_FirstPage :
  GetPaginated (mockDB sixRows) [] 5
  = ([SelectFirstPage 6],
     Ok (mkPaginatedResult (firstn 5 sixRows)
           (Some (encodeContinuationToken (str "user") (str "user-5")
                    (mkTime 1234567890 0))))).
Proof. reflexivity. Qed.

Example TestGetPaginated_WithToken :
  let now := time_Unix 1234567890 0 in
  let token := encodeContinuationToken (str "user") (str "user-5") now in
  GetPaginated (mockDB [row "user-6" "user" 1234567890 0]) token 5
  = ([SelectSeek now now (str "user") now (str "user") (str "user-5") 6],
     Ok (mkPaginatedResult [row "user-6" "user" 1234567890 0] None)).
Proof. reflexivity. Qed.

Example TestGetPaginated_InvalidToken :
  GetPaginated (mockDB []) (str "invalid-token") 5
  = ([], Err (InvalidToken Base64.CorruptInput)).
Proof. reflexivity. Qed.

Example TestGetPaginated_DefaultPageSize :
  GetPaginated (mockDB []) [] 0
  = ([SelectFirstPage (DefaultPageSize + 1)], Ok (mkPaginatedResult [] None)).
Proof. reflexivity. Qed.

Example ParseInt_out_of_range :
  Strconv.ParseInt (str "9223372036854775808") = Err Strconv.ErrRange
  /\ Strconv.ParseInt (str "-9223372036854775808") = Ok minInt64
  /\ Strconv.ParseInt (str "99999999999999999999999x") = Err Strconv.ErrRange
  /\ Strconv.ParseInt (str "12x") = Err Strconv.ErrSyntax
  /\ Strconv.ParseInt (str "+") = Err Strconv.ErrSyntax.
Proof. repeat split; reflexivity. Qed.

Example threeRows_traversal :
  traverse 4 (tableDB threeRows) [] 2
  = Some [row "user-3" "user" 1234567891 0; row "user-1" "user" 1234567890 0;
          row "doc-2" "document" 1234567890 0].
Proof. vm_compute. reflexivity. Qed.

(** * The claims *)

(** ** The cursor codec *)

(** Claim C3, as stated, fails: a cursor position whose resource type holds
    the delimiter does not survive the round trip; decoding its token is
    rejected with the format error. *)
Lemma C3_round_trip_fails_on_delimiter :
  decodeContinuationToken
    (encodeContinuationToken (str "a|b") (str "x") (mkTime 0 0))
  = Err InvalidTokenFormat
  /\ ~ (exists t, decodeContinuationToken
                    (encodeContinuationToken (str "a|b") (str "x") (mkTime 0 0))
                  = Ok (str "a|b", str "x", t)).
Proof.
  split; [ reflexivity | ].
  intros [t H]. vm_compute in H. discriminate.
Qed.

(** Claim C3, amended: for every cursor position whose resource type and
    resource id hold no [|], decoding the encoded token succeeds and returns
    the same resource type, the same resource id, and the timestamp cut to
    whole seconds, its sub-second part zero. *)
Theorem C3_codec_round_trip (resourceType resourceID : gostring) (timestamp : Time) :
  ~ In pipe resourceType -> ~ In pipe resourceID -> valid_time timestamp ->
  decodeContinuationToken (encodeContinuationToken resourceType resourceID timestamp)
  = Ok (resourceType, resourceID, mkTime (sec timestamp) 0).
Proof.
  intros Hty Hid [Hsec _]. now apply decode_encode.
Qed.

Lemma C3_codec_round_trip_witness :
  ~ In pipe (str "user") /\ ~ In pipe (str "user-123")
  /\ valid_time (mkTime 1234567890 987654321)
  /\ decodeContinuationToken
       (encodeContinuationToken (str "user") (str "user-123")
          (mkTime 1234567890 987654321))
     = Ok (str "user", str "user-123", mkTime 1234567890 0).
Proof.
  assert (H1 : ~ In pipe (str "user"))
    by (cbn; intuition discriminate).
  assert (H2 : ~ In pipe (str "user-123"))
    by (cbn; intuition discriminate).
  assert (H3 : valid_time (mkTime 1234567890 987654321))
    by (unfold valid_time, in_int64, minInt64, maxInt64; cbn; lia).
  split; [ exact H1 | split; [ exact H2 | split; [ exact H3 | ] ] ].
  exact (C3_codec_round_trip _ _ _ H1 H2 H3).
Defined.


(** The class of a token decides the outcome. *)
Lemma decode_class (token : gostring) :
  match decodeContinuationToken token with
  | Err (InvalidToken _) => badEncoding token
  | Err InvalidTokenFormat => badFormat token
  | Err (InvalidTokenTimestamp _) => badTimestamp token
  | Err (StoreQueryFailed _) => False
  | Ok _ => ~ badEncoding token /\ ~ badFormat token /\ ~ badTimestamp token
  end.
Proof.
  unfold decodeContinuationToken, badEncoding, badFormat, badTimestamp.
  destruct (Base64.DecodeString token) as [ decoded | e ]; [ | now exists e ].
  assert (Hformat : length (Split decoded pipe) <> 3%nat ->
                    exists d, Ok (E := Base64.CorruptInputError) decoded = Ok d
                              /\ length (Split d pipe) <> 3%nat)
    by (intros H; now exists decoded).
  destruct (Split decoded pipe) as [ | f1 [ | f2 [ | f3 [ | f4 l ] ] ] ] eqn:Hsplit;
    try (apply Hformat; cbn; lia).
  clear Hformat.
  destruct (Strconv.ParseInt f3) as [ v | e ] eqn:Hparse.
  - apply StrconvFacts.ParseInt_Ok_iff in Hparse. repeat split.
    + intros [e He]. discriminate.
    + intros (d & Hd & Hlen). injection Hd as <-. rewrite Hsplit in Hlen.
      now apply Hlen.
    + intros (d & g1 & g2 & g3 & Hd & Hs & Hno). injection Hd as <-.
      rewrite Hsplit in Hs. injection Hs as <- <- <-. apply Hno. now exists v.
  - exists decoded, f1, f2, f3. repeat split; try assumption.
    intros [v Hv]. apply StrconvFacts.ParseInt_Ok_iff in Hv. congruence.
Qed.


(** Claim C7: [encodeContinuationToken] is deterministic, two calls with the
    same resource type, resource id and timestamp give the same token, and
    every token it produces is made of URL-safe characters only: the
    letters, the digits, [-], [_] and the padding [=]. *)
Theorem C7_encode_deterministic_urlsafe
  (resourceType resourceID : gostring) (timestamp : Time)
  (resourceType' resourceID' : gostring) (timestamp' : Time) :
  resourceType = resourceType' -> resourceID = resourceID' -> timestamp = timestamp' ->
  encodeContinuationToken resourceType resourceID timestamp
  = encodeContinuationToken resourceType' resourceID' timestamp'
  /\ Forall (fun c => Base64.urlSafe c = true)
       (encodeContinuationToken resourceType resourceID timestamp).
Proof.
  intros -> -> ->. split; [ reflexivity | ].
  unfold encodeContinuationToken. apply Base64Facts.urlSafe_EncodeToString.
Qed.

Lemma C7_encode_deterministic_urlsafe_witness :
  encodeContinuationToken (str "task") (str "task-4567") (mkTime 1705398400 0)
  = encodeContinuationToken (str "task") (str "task-4567") (mkTime 1705398400 0)
  /\ Forall (fun c => Base64.urlSafe c = true)
       (encodeContinuationToken (str "task") (str "task-4567") (mkTime 1705398400 0)).
Proof.
  exact (C7_encode_deterministic_urlsafe
           (str "task") (str "task-4567") (mkTime 1705398400 0)
           (str "task") (str "task-4567") (mkTime 1705398400 0)
           eq_refl eq_refl eq_refl).
Defined.

(** Claim C8: the delimiter is not escaped.  For every position whose
    resource type or resource id holds a [|], decoding the encoded token
    does not return the position: it fails with the invalid-format error or
    with the invalid-timestamp error. *)
Theorem C8_delimiter_breaks_round_trip
  (resourceType resourceID : gostring) (timestamp : Time) :
  In pipe resourceType \/ In pipe resourceID ->
  let decoded :=
    decodeContinuationToken
      (encodeContinuationToken resourceType resourceID timestamp) in
  (decoded = Err InvalidTokenFormat
   \/ exists e, decoded = Err (InvalidTokenTimestamp e))
  /\ forall position, decoded <> Ok position.
Proof.
  intros Hin decoded. subst decoded.
  rewrite (decode_encode_pipe _ _ _ Hin).
  split; [ now left | discriminate ].
Qed.

Lemma C8_delimiter_breaks_round_trip_witness :
  (In pipe (str "a|b") \/ In pipe (str "x"))
  /\ decodeContinuationToken
       (encodeContinuationToken (str "a|b") (str "x") (mkTime 0 0))
     <> Ok (str "a|b", str "x", mkTime 0 0).
Proof.
  assert (H : In pipe (str "a|b") \/ In pipe (str "x"))
    by (left; cbn; tauto).
  split; [ exact H | ].
  exact (proj2 (C8_delimiter_breaks_round_trip (str "a|b") (str "x") (mkTime 0 0) H)
           (str "a|b", str "x", mkTime 0 0)).
Defined.

(** ** The seek predicate *)

(** Claim C4: for every row and every cursor position, the three-branch
    filter of [GetPaginated] holds exactly when the row's 3-tuple
    (created_at, resource_type, resource_id) is strictly below the cursor's
    in the lexicographic order, ties broken left to right; and no two of the
    three branches hold together. *)
Theorem C4_seek_predicate_lexicographic
  (r : Record_) (cursor : Time) (cursorType cursorID : gostring) :
  (whereSeek cursor cursor cursorType cursor cursorType cursorID r = true
   <-> key_lt (keyOf r) (cursor, cursorType, cursorID))
  /\ seek1 r cursor && seek2 r cursor cursorType = false
  /\ seek1 r cursor && seek3 r cursor cursorType cursorID = false
  /\ seek2 r cursor cursorType && seek3 r cursor cursorType cursorID = false.
Proof.
  split; [ apply whereSeek_spec | ].
  unfold seek1, seek2, seek3.
  repeat split; apply not_true_iff_false;
    repeat (rewrite andb_true_iff);
    rewrite ?(time_ltb_spec (CreatedAt r) cursor),
      ?(time_eqb_spec (CreatedAt r) cursor),
      ?(str_ltb_spec (ResourceType r) cursorType),
      ?(str_eqb_spec (ResourceType r) cursorType).
  - intros [Hlt [Heq _]]. rewrite Heq in Hlt. now apply (st_irrefl cursor).
  - intros [Hlt [[Heq _] _]]. rewrite Heq in Hlt. now apply (st_irrefl cursor).
  - intros [[_ Hlt] [[_ Heq] _]]. rewrite Heq in Hlt.
    now apply (st_irrefl cursorType).
Qed.

(** The query a decodable token leads to binds the decoded position to
    the six placeholders of the filter. *)
Lemma GetPaginated_query (db : DB) (token : gostring) (pageSize : Z)
  (ty id : gostring) (t : Time) :
  token <> [] -> decodeContinuationToken token = Ok (ty, id, t) ->
  fst (GetPaginated db token pageSize)
  = [SelectSeek t t ty t ty id (int64 (normalized pageSize + 1))].
Proof.
  intros Hne Hdec. unfold GetPaginated. fold (normalized pageSize).
  destruct token as [ | c token ]; [ congruence | ].
  rewrite Hdec. now destruct (db _).
Qed.

(** ** The paginator *)

(** Claim C2: with effective page size N, when the store returns N+1 rows
    the result holds exactly the first N of them and a token encoded from
    the N-th row, the last one retained and not the extra one; when the
    store returns N rows or fewer, the result holds them all and no token. *)
Theorem C2_page_boundary (db : DB) (token : gostring) (pageSize : Z)
  (qs : list Query) (page : PaginatedResult) :
  GetPaginated db token pageSize = (qs, Ok page) ->
  let N := normalized pageSize in
  exists q records,
    qs = [q] /\ db q = Ok records
    /\ (Z.of_nat (length records) = N + 1 ->
        Records page = firstn (Z.to_nat N) records
        /\ length (Records page) = Z.to_nat N
        /\ exists last,
             nth_error (Records page) (Z.to_nat N - 1) = Some last
             /\ NextContinuationToken page = Some (tokenOf last))
    /\ (Z.of_nat (length records) <= N ->
        Records page = records /\ NextContinuationToken page = None).
Proof.
  intros Hcall N.
  destruct (GetPaginated_Ok _ _ _ _ _ Hcall) as (q & records & -> & Hdb & _ & ->).
  fold N. pose proof (normalized_pos pageSize) as HN. fold N in HN.
  exists q, records. split; [ reflexivity | split; [ exact Hdb | split ] ].
  - intros Hlen.
    destruct (pageOf_more records N HN) as (last & Hlast & ->); [ lia | ].
    cbn [Records NextContinuationToken].
    split; [ reflexivity | split; [ rewrite length_firstn; lia | ] ].
    exists last. split; [ | reflexivity ].
    replace (Z.to_nat (N - 1)) with (Z.to_nat N - 1)%nat in Hlast by lia.
    rewrite nth_error_firstn.
    destruct (Nat.ltb_spec (Z.to_nat N - 1) (Z.to_nat N)); [ exact Hlast | lia ].
  - intros Hlen. now rewrite pageOf_last by assumption.
Qed.

Lemma C2_page_boundary_witness :
  GetPaginated (mockDB sixRows) [] 5
  = ([SelectFirstPage 6], Ok (pageOf sixRows 5))
  /\ exists q records,
       [SelectFirstPage 6] = [q] /\ mockDB sixRows q = Ok records
       /\ (Z.of_nat (length records) = 5 + 1 ->
           Records (pageOf sixRows 5) = firstn 5 records
           /\ length (Records (pageOf sixRows 5)) = 5%nat
           /\ exists last,
                nth_error (Records (pageOf sixRows 5)) 4 = Some last
                /\ NextContinuationToken (pageOf sixRows 5) = Some (tokenOf last))
       /\ (Z.of_nat (length records) <= 5 ->
           Records (pageOf sixRows 5) = records
           /\ NextContinuationToken (pageOf sixRows 5) = None).
Proof.
  assert (H : GetPaginated (mockDB sixRows) [] 5
              = ([SelectFirstPage 6], Ok (pageOf sixRows 5))) by reflexivity.
  split; [ exact H | ].
  exact (C2_page_boundary (mockDB sixRows) [] 5 _ _ H).
Defined.

(** Claim C10: whatever the length k of the store's reply and whatever the
    page size asked for, a successful result holds min(k, N) records, N the
    normalized page size (the page size when positive, else 5), and it
    carries a token exactly when k > N. *)
Theorem C10_page_shape (db : DB) (token : gostring) (pageSize : Z)
  (qs : list Query) (page : PaginatedResult) :
  GetPaginated db token pageSize = (qs, Ok page) ->
  let N := if 0 <? pageSize then pageSize else 5 in
  exists q records,
    qs = [q] /\ db q = Ok records
    /\ Z.of_nat (length (Records page)) = Z.min (Z.of_nat (length records)) N
    /\ (NextContinuationToken page <> None <-> Z.of_nat (length records) > N).
Proof.
  intros Hcall N.
  destruct (GetPaginated_Ok _ _ _ _ _ Hcall) as (q & records & -> & Hdb & _ & ->).
  assert (HN : normalized pageSize = N).
  { unfold normalized, DefaultPageSize. subst N.
    destruct (Z.leb_spec pageSize 0), (Z.ltb_spec 0 pageSize); lia. }
  rewrite HN. pose proof (normalized_pos pageSize) as Hpos. rewrite HN in Hpos.
  exists q, records. split; [ reflexivity | split; [ exact Hdb | ] ].
  destruct (Z_gt_le_dec (Z.of_nat (length records)) N) as [ Hgt | Hle ].
  - destruct (pageOf_more records N Hpos Hgt) as (last & _ & ->).
    cbn [Records NextContinuationToken]. rewrite length_firstn.
    split; [ lia | ]. split; [ intros _; exact Hgt | discriminate ].
  - rewrite pageOf_last by assumption. cbn [Records NextContinuationToken].
    split; [ lia | ]. split; [ congruence | lia ].
Qed.

Lemma C10_page_shape_witness :
  GetPaginated (tableDB threeRows) [] 2
  = ([SelectFirstPage 3], Ok (pageOf (orderByDesc threeRows) 2))
  /\ exists q records,
       [SelectFirstPage 3] = [q] /\ tableDB threeRows q = Ok records
       /\ Z.of_nat (length (Records (pageOf (orderByDesc threeRows) 2)))
          = Z.min (Z.of_nat (length records)) 2
       /\ (NextContinuationToken (pageOf (orderByDesc threeRows) 2) <> None
           <-> Z.of_nat (length records) > 2).
Proof.
  assert (H : GetPaginated (tableDB threeRows) [] 2
              = ([SelectFirstPage 3], Ok (pageOf (orderByDesc threeRows) 2)))
    by reflexivity.
  split; [ exact H | ].
  exact (C10_page_shape (tableDB threeRows) [] 2 _ _ H).
Defined.



(** Claim C9: for every non-empty token that fails to decode,
    [GetPaginated] returns no result, the decode error, and sends no query
    to the store. *)
Theorem C9_invalid_token_no_query (db : DB) (token : gostring) (pageSize : Z)
  (e : Error) :
  token <> [] -> decodeContinuationToken token = Err e ->
  GetPaginated db token pageSize = ([], Err e).
Proof.
  intros Hne Hdec. unfold GetPaginated.
  destruct token as [ | c token ]; [ congruence | ].
  now rewrite Hdec.
Qed.

Lemma C9_invalid_token_no_query_witness :
  str "invalid-token" <> []
  /\ decodeContinuationToken (str "invalid-token") = Err (InvalidToken Base64.CorruptInput)
  /\ GetPaginated (tableDB threeRows) (str "invalid-token") 5
     = ([], Err (InvalidToken Base64.CorruptInput)).
Proof.
  assert (H1 : str "invalid-token" <> []) by discriminate.
  assert (H2 : decodeContinuationToken (str "invalid-token")
               = Err (InvalidToken Base64.CorruptInput)) by reflexivity.
  split; [ exact H1 | split; [ exact H2 | ] ].
  exact (C9_invalid_token_no_query (tableDB threeRows) (str "invalid-token") 5 _ H1 H2).
Defined.

(** ** Exhaustive traversal *)

(** Claim C1, as stated, fails on two row sets.  Of two rows created within
    the same second at different sub-second times, the traversal with page
    size 1 returns the first and ends: the token carries whole seconds, and
    the second row is neither before that second nor at it.  And a row whose
    resource id holds the delimiter ends a page with a token that the next
    call rejects. *)
Lemma C1_traversal_loses_rows :
  (traverse 3 (tableDB subsecondRows) [] 1 = Some [row "a" "t" 10 500000000]
   /\ In (row "b" "t" 10 100000000) subsecondRows
   /\ ~ In (row "b" "t" 10 100000000) [row "a" "t" 10 500000000]
   /\ snd (GetPaginated (tableDB subsecondRows)
             (tokenOf (row "a" "t" 10 500000000)) 1)
      = Ok (mkPaginatedResult [] None))
  /\ (snd (GetPaginated (tableDB delimiterRows) [] 1)
      = Ok (mkPaginatedResult [row "a|b" "t" 20 0]
              (Some (tokenOf (row "a|b" "t" 20 0))))
      /\ snd (GetPaginated (tableDB delimiterRows) (tokenOf (row "a|b" "t" 20 0)) 1)
         = Err InvalidTokenFormat).
Proof.
  split; [ split; [ | split; [ | split ] ] | split ];
    try (vm_compute; reflexivity).
  - right. now left.
  - intros [ H | [] ]. discriminate H.
Qed.

(** Claim C1, amended: for every row set with distinct 3-tuples whose
    resource types and resource ids hold no [|] and whose creation times
    are whole seconds, and for every positive page size below the largest
    [int], starting [GetPaginated] with the empty token and resubmitting
    each returned token until none is returned yields every row of the set
    exactly once, in descending lexicographic order of the 3-tuple
    (created_at, resource_type, resource_id). *)
Theorem C1_traversal_exhaustive (table : list Record_) (pageSize : Z) (fuel : nat) :
  NoDup (map keyOf table) -> Forall cursorSafe table ->
  0 < pageSize -> pageSize < maxInt64 ->
  (length table < fuel)%nat ->
  exists rows,
    traverse fuel (tableDB table) [] pageSize = Some rows
    /\ Permutation table rows
    /\ NoDup rows
    /\ StronglySorted before rows.
Proof.
  intros Hnd Hsafe Hpos Hbound Hfuel.
  exists (orderByDesc table). split; [ | split; [ | split ] ].
  - now apply traverse_table.
  - apply orderByDesc_Permutation.
  - apply (Permutation_NoDup (orderByDesc_Permutation table)).
    now apply NoDup_map_inv with (f := keyOf).
  - now apply orderByDesc_sorted.
Qed.

Lemma C1_traversal_exhaustive_witness :
  NoDup (map keyOf threeRows) /\ Forall cursorSafe threeRows
  /\ 0 < 2 /\ 2 < maxInt64 /\ (length threeRows < 4)%nat
  /\ exists rows,
       traverse 4 (tableDB threeRows) [] 2 = Some rows
       /\ Permutation threeRows rows
       /\ NoDup rows
       /\ StronglySorted before rows.
Proof.
  assert (H1 : NoDup (map keyOf threeRows)).
  { repeat constructor; cbn; intuition discriminate. }
  assert (H2 : Forall cursorSafe threeRows).
  { repeat constructor; cbn; try lia; try discriminate; intuition discriminate. }
  assert (H3 : 0 < 2) by lia.
  assert (H4 : 2 < maxInt64) by reflexivity.
  assert (H5 : (length threeRows < 4)%nat) by (cbn; lia).
  split; [ exact H1 | split; [ exact H2 | split; [ exact H3 |
    split; [ exact H4 | split; [ exact H5 | ] ] ] ] ].
  exact (C1_traversal_exhaustive threeRows 2 4 H1 H2 H3 H4 H5).
Defined.

(** * Further properties of the code *)

(** ** The cursor codec, continued *)

Lemma Split_fields_no_sep (s : gostring) (sep : ascii) (f : gostring) :
  In f (Split s sep) -> ~ In sep f.
Proof.
  revert f. induction s as [ | c s IH ]; intros f; cbn [Split].
  - intros [ <- | [] ]. intros [].
  - destruct (Ascii.eqb_spec c sep) as [ -> | Hne ].
    + intros [ <- | Hin ]; [ intros [] | now apply IH ].
    + destruct (Split s sep) as [ | h t ] eqn:Hs.
      * intros [ <- | [] ]. intros [ Heq | [] ]. congruence.
      * intros [ <- | Hin ].
        -- intros [ Heq | Hin ]; [ congruence | ].
           revert Hin. apply IH. now left.
        -- apply IH. now right.
Qed.

(** What a successful decoding tells about the token. *)
Lemma decode_Ok_inv (token ty id : gostring) (t : Time) :
  decodeContinuationToken token = Ok (ty, id, t) ->
  exists decoded part2 v,
    Base64.DecodeString token = Ok decoded
    /\ Split decoded pipe = [ty; id; part2]
    /\ Strconv.ParseInt part2 = Ok v
    /\ t = mkTime v 0.
Proof.
  unfold decodeContinuationToken.
  destruct (Base64.DecodeString token) as [ decoded | e ]; [ | discriminate ].
  destruct (Split decoded pipe) as [ | f1 [ | f2 [ | f3 [ | f4 l ] ] ] ] eqn:Hsplit;
    try discriminate.
  destruct (Strconv.ParseInt f3) as [ v | e ] eqn:Hparse; [ | discriminate ].
  intros H. injection H as <- <- <-.
  now exists decoded, f3, v.
Qed.

(** Property X1: a position that [decodeContinuationToken] returns has a
    resource type and a resource id without [|] and a timestamp in whole
    seconds within the 64-bit range; encoding it and decoding the token
    again returns the same position. *)
Theorem decoded_position_reencodes (token ty id : gostring) (t : Time) :
  decodeContinuationToken token = Ok (ty, id, t) ->
  ~ In pipe ty /\ ~ In pipe id /\ valid_time t /\ whole_second t
  /\ decodeContinuationToken (encodeContinuationToken ty id t) = Ok (ty, id, t).
Proof.
  intros Hdec.
  destruct (decode_Ok_inv _ _ _ _ Hdec) as (decoded & part2 & v & _ & Hsplit & Hparse & ->).
  apply StrconvFacts.ParseInt_Ok_iff in Hparse. destruct Hparse as [_ Hv].
  assert (Hty : ~ In pipe ty)
    by (apply (Split_fields_no_sep decoded); rewrite Hsplit; now left).
  assert (Hid : ~ In pipe id)
    by (apply (Split_fields_no_sep decoded); rewrite Hsplit; right; now left).
  split; [ exact Hty | split; [ exact Hid | ] ].
  split; [ split; [ exact Hv | cbn; lia ] | ].
  split; [ reflexivity | ].
  now apply decode_encode.
Qed.

Lemma decoded_position_reencodes_witness :
  decodeContinuationToken (str "dGFza3x0YXNrLTQ1Njd8MTcwNTM5ODQwMA==")
  = Ok (str "task", str "task-4567", mkTime 1705398400 0)
  /\ decodeContinuationToken
       (encodeContinuationToken (str "task") (str "task-4567") (mkTime 1705398400 0))
     = Ok (str "task", str "task-4567", mkTime 1705398400 0).
Proof.
  assert (H : decodeContinuationToken (str "dGFza3x0YXNrLTQ1Njd8MTcwNTM5ODQwMA==")
              = Ok (str "task", str "task-4567", mkTime 1705398400 0)) by reflexivity.
  split; [ exact H | ].
  exact (proj2 (proj2 (proj2 (proj2 (decoded_position_reencodes _ _ _ _ H))))).
Defined.

(** Property X2: on resource types and ids without [|] and timestamps in
    the 64-bit range, two positions get the same token exactly when they
    have the same resource type, the same resource id and the same Unix
    second. *)
Theorem token_identifies_position
  (ty id ty' id' : gostring) (t t' : Time) :
  ~ In pipe ty -> ~ In pipe id -> ~ In pipe ty' -> ~ In pipe id' ->
  valid_time t -> valid_time t' ->
  (encodeContinuationToken ty id t = encodeContinuationToken ty' id' t'
   <-> ty = ty' /\ id = id' /\ Time_Unix t = Time_Unix t').
Proof.
  intros Hty Hid Hty' Hid' [Ht _] [Ht' _]. split.
  - intros Heq.
    pose proof (decode_encode ty id t Hty Hid Ht) as H1.
    pose proof (decode_encode ty' id' t' Hty' Hid' Ht') as H2.
    rewrite Heq, H2 in H1. injection H1 as -> -> Hsec.
    now unfold Time_Unix.
  - intros (-> & -> & Hsec). unfold encodeContinuationToken. now rewrite Hsec.
Qed.

Lemma token_identifies_position_witness :
  encodeContinuationToken (str "user") (str "user-5") (mkTime 1234567890 250000000)
  = encodeContinuationToken (str "user") (str "user-5") (mkTime 1234567890 750000000).
Proof.
  assert (H1 : ~ In pipe (str "user")) by (cbn; intuition discriminate).
  assert (H2 : ~ In pipe (str "user-5")) by (cbn; intuition discriminate).
  assert (H3 : valid_time (mkTime 1234567890 250000000))
    by (unfold valid_time, in_int64, minInt64, maxInt64; cbn; lia).
  assert (H4 : valid_time (mkTime 1234567890 750000000))
    by (unfold valid_time, in_int64, minInt64, maxInt64; cbn; lia).
  apply (proj2 (token_identifies_position _ _ _ _ _ _ H1 H2 H1 H2 H3 H4)).
  split; [ reflexivity | split; reflexivity ].
Defined.








Lemma isNewline_not_pad (nl : ascii) :
  Base64.isNewline nl = true -> Ascii.eqb nl Base64.padChar = false.
Proof.
  unfold Base64.isNewline. rewrite orb_true_iff, !Ascii.eqb_eq.
  intros [ -> | -> ]; reflexivity.
Qed.







(** ** The paginator, continued *)

Lemma decode_not_store_error (token : gostring) (e : sqlError) :
  decodeContinuationToken token <> Err (StoreQueryFailed e).
Proof.
  pose proof (decode_class token) as H. intros Heq. now rewrite Heq in H.
Qed.

(** The call as a case analysis on the token and on the store's answer. *)
Lemma GetPaginated_cases (db : DB) (token : gostring) (pageSize : Z) :
  (exists e, token <> [] /\ decodeContinuationToken token = Err e
             /\ GetPaginated db token pageSize = ([], Err e))
  \/ (exists q,
        (token = [] \/ exists p, decodeContinuationToken token = Ok p)
        /\ ((exists e, db q = Err e
                       /\ GetPaginated db token pageSize = ([q], Err (StoreQueryFailed e)))
            \/ (exists records,
                  db q = Ok records
                  /\ GetPaginated db token pageSize
                     = ([q], Ok (pageOf records (normalized pageSize)))))).
Proof.
  unfold GetPaginated. fold (normalized pageSize).
  destruct token as [ | c token ].
  - right. exists (SelectFirstPage (int64 (normalized pageSize + 1))).
    split; [ now left | ].
    destruct (db _) as [ records | e ] eqn:Hdb.
    + right. exists records. split; reflexivity.
    + left. exists e. split; reflexivity.
  - destruct (decodeContinuationToken (c :: token)) as [ [[ty id] t] | e ] eqn:Hdec.
    + right. exists (SelectSeek t t ty t ty id (int64 (normalized pageSize + 1))).
      split; [ right; eexists; reflexivity | ].
      destruct (db _) as [ records | e ] eqn:Hdb.
      * right. exists records. split; reflexivity.
      * left. exists e. split; reflexivity.
    + left. exists e. repeat split. discriminate.
Qed.

(** Property X5: [GetPaginated] sends at most one query; it sends none
    exactly when the token is non-empty and does not decode; and it fails
    with a store error exactly when its one query was answered with that
    error. *)
Theorem GetPaginated_store_contact (db : DB) (token : gostring) (pageSize : Z) :
  (length (fst (GetPaginated db token pageSize)) <= 1)%nat
  /\ (fst (GetPaginated db token pageSize) = []
      <-> token <> [] /\ exists e, decodeContinuationToken token = Err e)
  /\ (forall e,
        snd (GetPaginated db token pageSize) = Err (StoreQueryFailed e)
        <-> exists q, fst (GetPaginated db token pageSize) = [q] /\ db q = Err e).
Proof.
  destruct (GetPaginated_cases db token pageSize)
    as [ (e & Hne & Hdec & ->)
       | (q & Hok & [ (e & Hdb & ->) | (records & Hdb & ->) ]) ];
    cbn [fst snd length].
  - split; [ lia | split ].
    + split; [ intros _; split; [ exact Hne | now exists e ] | reflexivity ].
    + intros e'. split.
      * intros H. injection H as ->. now apply decode_not_store_error in Hdec.
      * intros (q & Hq & _). discriminate.
  - split; [ lia | split ].
    + split; [ discriminate | ].
      intros (Hne & e' & Hdec). destruct Hok as [ -> | [p Hp] ]; congruence.
    + intros e'. split.
      * intros H. injection H as <-. now exists q.
      * intros (q' & Hq & Hdb'). injection Hq as <-. congruence.
  - split; [ lia | split ].
    + split; [ discriminate | ].
      intros (Hne & e' & Hdec). destruct Hok as [ -> | [p Hp] ]; congruence.
    + intros e'. split; [ discriminate | ].
      intros (q' & Hq & Hdb'). injection Hq as <-. congruence.
Qed.

(** A page with a token ends on the row the token was made from. *)
Lemma page_last_row (db : DB) (token : gostring) (pageSize : Z)
  (qs : list Query) (page : PaginatedResult) (next : gostring) :
  GetPaginated db token pageSize = (qs, Ok page) ->
  NextContinuationToken page = Some next ->
  exists front last, Records page = front ++ [last] /\ next = tokenOf last.
Proof.
  intros Hcall Hnext.
  destruct (GetPaginated_Ok _ _ _ _ _ Hcall) as (q & records & _ & _ & _ & ->).
  pose proof (normalized_pos pageSize) as HN.
  set (N := normalized pageSize) in *.
  destruct (Z_gt_le_dec (Z.of_nat (length records)) N) as [ Hgt | Hle ].
  - destruct (pageOf_more records N HN Hgt) as (last & Hlast & Hpage).
    rewrite Hpage in Hnext |- *. cbn [Records NextContinuationToken] in *.
    injection Hnext as <-.
    exists (firstn (Z.to_nat N - 1) records), last. split; [ | reflexivity ].
    apply (nth_error_nth _ _ zeroRecord) in Hlast.
    replace (Z.to_nat (N - 1)) with (Z.to_nat N - 1)%nat in Hlast by lia.
    rewrite <- Hlast.
    replace (Z.to_nat N) with (S (Z.to_nat N - 1)) at 1 by lia.
    apply firstn_snoc_nth. lia.
  - rewrite pageOf_last in Hnext by assumption. discriminate.
Qed.

(** Whether the token of a row decodes. *)
Lemma tokenOf_decodes (r : Record_) :
  in_int64 (Time_Unix (CreatedAt r)) ->
  ((exists p, decodeContinuationToken (tokenOf r) = Ok p)
   <-> ~ In pipe (ResourceType r) /\ ~ In pipe (ResourceID r)).
Proof.
  intros Hsec. unfold tokenOf. split.
  - intros [p Hp].
    destruct (in_dec ascii_dec pipe (ResourceType r)) as [ Hin | Hty ].
    { rewrite decode_encode_pipe in Hp by now left. discriminate. }
    destruct (in_dec ascii_dec pipe (ResourceID r)) as [ Hin | Hid ].
    { rewrite decode_encode_pipe in Hp by now right. discriminate. }
    now split.
  - intros [Hty Hid]. eexists. now apply decode_encode.
Qed.

(** Property X6: the token of a successful page is made from the last row
    of the page, and, the row's Unix time being a 64-bit integer, the next
    call can decode it exactly when neither the resource type nor the
    resource id of that row holds a [|]. *)
Theorem emitted_token_decodes (db : DB) (token : gostring) (pageSize : Z)
  (qs : list Query) (page : PaginatedResult) (next : gostring) :
  GetPaginated db token pageSize = (qs, Ok page) ->
  NextContinuationToken page = Some next ->
  exists front last,
    Records page = front ++ [last]
    /\ next = tokenOf last
    /\ (in_int64 (Time_Unix (CreatedAt last)) ->
        ((exists p, decodeContinuationToken next = Ok p)
         <-> ~ In pipe (ResourceType last) /\ ~ In pipe (ResourceID last))).
Proof.
  intros Hcall Hnext.
  destruct (page_last_row _ _ _ _ _ _ Hcall Hnext) as (front & last & Hrec & ->).
  exists front, last. split; [ exact Hrec | split; [ reflexivity | ] ].
  apply tokenOf_decodes.
Qed.

Lemma emitted_token_decodes_witness :
  exists front last,
    Records (pageOf sixRows 5) = front ++ [last]
    /\ tokenOf (row "user-5" "user" 1234567890 0) = tokenOf last
    /\ (in_int64 (Time_Unix (CreatedAt last)) ->
        ((exists p, decodeContinuationToken (tokenOf (row "user-5" "user" 1234567890 0))
                    = Ok p)
         <-> ~ In pipe (ResourceType last) /\ ~ In pipe (ResourceID last))).
Proof.
  assert (H1 : GetPaginated (mockDB sixRows) [] 5
               = ([SelectFirstPage 6], Ok (pageOf sixRows 5))) by reflexivity.
  assert (H2 : NextContinuationToken (pageOf sixRows 5)
               = Some (tokenOf (row "user-5" "user" 1234567890 0))) by reflexivity.
  exact (emitted_token_decodes (mockDB sixRows) [] 5 _ _ _ H1 H2).
Defined.


(** ** Pages of a table *)

Lemma In_firstn (k : nat) (l : list Record_) (r : Record_) :
  In r (firstn k l) -> In r l.
Proof.
  revert l. induction k as [ | k IH ]; intros [ | x l ]; cbn [firstn In];
    try contradiction.
  intros [ <- | Hin ]; [ now left | right; now apply IH ].
Qed.

Lemma firstn_sorted (k : nat) (l : list Record_) :
  StronglySorted before l -> StronglySorted before (firstn k l).
Proof.
  intros Hs. revert k. induction Hs as [ | x l Hl IH Hx ]; intros [ | k ];
    cbn [firstn]; try constructor.
  - apply IH.
  - rewrite Forall_forall in *. intros y Hy. apply Hx.
    now apply (In_firstn k) in Hy.
Qed.

Lemma sorted_app (l1 l2 : list Record_) :
  StronglySorted before l1 -> StronglySorted before l2 ->
  (forall x y, In x l1 -> In y l2 -> before x y) ->
  StronglySorted before (l1 ++ l2).
Proof.
  induction 1 as [ | a l1 Hl1 IH Ha ]; intros H2 H12; cbn [app]; [ assumption | ].
  constructor.
  - apply IH; [ assumption | ]. intros x y Hx Hy. apply H12; [ now right | assumption ].
  - apply Forall_app. split; [ assumption | ].
    rewrite Forall_forall. intros y Hy. apply H12; [ now left | assumption ].
Qed.

Lemma sorted_NoDup (l : list Record_) : StronglySorted before l -> NoDup l.
Proof.
  induction 1 as [ | a l Hl IH Ha ]; constructor; [ | assumption ].
  intros Hin. rewrite Forall_forall in Ha.
  now apply (before_irrefl a), Ha.
Qed.

(** What the store answers is descending, comes from the table, and
    passes the filter of the query. *)
Lemma tableDB_answer (table : list Record_) (q : Query) (records : list Record_) :
  NoDup (map keyOf table) -> tableDB table q = Ok records ->
  StronglySorted before records
  /\ (forall r, In r records -> In r table)
  /\ match q with
     | SelectFirstPage _ => True
     | SelectSeek a1 a2 a3 a4 a5 a6 _ =>
         forall r, In r records -> whereSeek a1 a2 a3 a4 a5 a6 r = true
     end.
Proof.
  intros Hnd. unfold tableDB, limitRows.
  destruct q as [ limit | a1 a2 a3 a4 a5 a6 limit ];
    (destruct (limit <? 0); [ discriminate | ]);
    intros H; injection H as <-.
  - split; [ apply firstn_sorted; now apply orderByDesc_sorted | ].
    split; [ | exact I ].
    intros r Hr. apply In_firstn in Hr.
    eapply Permutation_in; [ symmetry; apply orderByDesc_Permutation | exact Hr ].
  - assert (Hin : forall r,
              In r (firstn (Z.to_nat limit)
                      (orderByDesc (filter (whereSeek a1 a2 a3 a4 a5 a6) table))) ->
              In r (filter (whereSeek a1 a2 a3 a4 a5 a6) table)).
    { intros r Hr. apply In_firstn in Hr.
      eapply Permutation_in; [ symmetry; apply orderByDesc_Permutation | exact Hr ]. }
    split; [ apply firstn_sorted, orderByDesc_sorted; now apply filter_NoDup_keys | ].
    split; intros r Hr; apply Hin, filter_In in Hr; tauto.
Qed.

Lemma pageOf_Records_prefix (records : list Record_) (N : Z) :
  exists k, Records (pageOf records N) = firstn k records.
Proof.
  unfold pageOf. destruct (Z.gtb_spec (Z.of_nat (length records)) N).
  - now exists (Z.to_nat N).
  - exists (length records). cbn [Records]. now rewrite firstn_all.
Qed.

(** The rows of a page over a table. *)
Lemma page_rows (table : list Record_) (token : gostring) (pageSize : Z)
  (qs : list Query) (page : PaginatedResult) :
  NoDup (map keyOf table) ->
  GetPaginated (tableDB table) token pageSize = (qs, Ok page) ->
  StronglySorted before (Records page)
  /\ (forall r, In r (Records page) -> In r table)
  /\ (forall ty id t,
        token <> [] -> decodeContinuationToken token = Ok (ty, id, t) ->
        forall r, In r (Records page) -> key_lt (keyOf r) (t, ty, id)).
Proof.
  intros Hnd Hcall.
  destruct (GetPaginated_Ok _ _ _ _ _ Hcall) as (q & records & -> & Hdb & _ & ->).
  destruct (tableDB_answer table q records Hnd Hdb) as (Hsorted & Hin & Hfilter).
  destruct (pageOf_Records_prefix records (normalized pageSize)) as [k ->].
  split; [ now apply firstn_sorted | ].
  split; [ intros r Hr; apply Hin; now apply In_firstn in Hr | ].
  intros ty id t Hne Hdec r Hr. apply In_firstn in Hr.
  pose proof (GetPaginated_query (tableDB table) token pageSize ty id t Hne Hdec) as Hq.
  rewrite Hcall in Hq. cbn [fst] in Hq. injection Hq as ->.
  apply whereSeek_spec. now apply Hfilter.
Qed.

(** Property X7: over a table with distinct 3-tuples, the rows of a page
    are rows of the table in strictly descending order of the 3-tuple, and
    when the page was asked for with a token, every row of it is strictly
    below the position the token decodes to. *)
Theorem page_below_cursor (table : list Record_) (token : gostring) (pageSize : Z)
  (qs : list Query) (page : PaginatedResult) :
  NoDup (map keyOf table) ->
  GetPaginated (tableDB table) token pageSize = (qs, Ok page) ->
  StronglySorted before (Records page)
  /\ (forall r, In r (Records page) -> In r table)
  /\ (forall ty id t,
        token <> [] -> decodeContinuationToken token = Ok (ty, id, t) ->
        forall r, In r (Records page) -> key_lt (keyOf r) (t, ty, id)).
Proof. apply page_rows. Qed.

Lemma page_below_cursor_witness :
  StronglySorted before [row "doc-2" "document" 1234567890 0]
  /\ (forall r, In r [row "doc-2" "document" 1234567890 0] -> In r threeRows)
  /\ (forall ty id t,
        tokenOf (row "user-1" "user" 1234567890 0) <> [] ->
        decodeContinuationToken (tokenOf (row "user-1" "user" 1234567890 0))
        = Ok (ty, id, t) ->
        forall r, In r [row "doc-2" "document" 1234567890 0] ->
                  key_lt (keyOf r) (t, ty, id)).
Proof.
  assert (H1 : NoDup (map keyOf threeRows)).
  { repeat constructor; cbn; intuition discriminate. }
  assert (H2 : GetPaginated (tableDB threeRows)
                 (tokenOf (row "user-1" "user" 1234567890 0)) 2
               = ([SelectSeek (mkTime 1234567890 0) (mkTime 1234567890 0) (str "user")
                     (mkTime 1234567890 0) (str "user") (str "user-1") 3],
                  Ok (mkPaginatedResult [row "doc-2" "document" 1234567890 0] None)))
    by (vm_compute; reflexivity).
  exact (page_below_cursor threeRows _ 2 _ _ H1 H2).
Defined.

(** The position a row's token decodes to is the row's 3-tuple or, the row
    created within a second, a 3-tuple below it. *)
Lemma cursor_at_or_below (r : Record_) (ty id : gostring) (t : Time) :
  valid_time (CreatedAt r) ->
  decodeContinuationToken (tokenOf r) = Ok (ty, id, t) ->
  (t, ty, id) = keyOf r \/ key_lt (t, ty, id) (keyOf r).
Proof.
  intros [Hsec Hnsec] Hdec.
  assert (Hok : exists p, decodeContinuationToken (tokenOf r) = Ok p)
    by (eexists; exact Hdec).
  apply (tokenOf_decodes r Hsec) in Hok. destruct Hok as [Hty Hid].
  unfold tokenOf in Hdec. rewrite decode_encode in Hdec by assumption.
  injection Hdec as <- <- <-.
  unfold keyOf. destruct (CreatedAt r) as [s ns]. cbn [sec nsec] in *.
  destruct (Z.eq_dec ns 0) as [ -> | Hne ]; [ now left | ].
  right. cbn. left. unfold time_lt. cbn. lia.
Qed.

Section Safety.

Variable table : list Record_.
Variable pageSize : Z.

Hypothesis unique_keys : NoDup (map keyOf table).
Hypothesis times_valid : Forall (fun r => valid_time (CreatedAt r)) table.

(** Whatever a traversal returns from a token on is descending, comes from
    the table and lies below the token's position. *)
Lemma traverse_descending (fuel : nat) :
  forall token rows,
    traverse fuel (tableDB table) token pageSize = Some rows ->
    StronglySorted before rows
    /\ (forall r, In r rows -> In r table)
    /\ (forall ty id t,
          token <> [] -> decodeContinuationToken token = Ok (ty, id, t) ->
          forall r, In r rows -> key_lt (keyOf r) (t, ty, id)).
Proof.
  induction fuel as [ | fuel IH ]; intros token rows Htrav; [ discriminate | ].
  cbn [traverse] in Htrav.
  destruct (GetPaginated (tableDB table) token pageSize) as [qs res] eqn:Hcall.
  cbn [snd] in Htrav. destruct res as [ page | e ]; [ | discriminate ].
  destruct (page_rows table token pageSize qs page unique_keys Hcall) as (Hsorted & Hin & Hbelow).
  destruct (NextContinuationToken page) as [ next | ] eqn:Hnext.
  2: { injection Htrav as <-. now repeat split. }
  destruct (traverse fuel (tableDB table) next pageSize) as [ more | ] eqn:Hmore;
    [ | discriminate ].
  injection Htrav as <-.
  destruct (page_last_row _ _ _ _ _ _ Hcall Hnext) as (front & last & Hrec & ->).
  destruct (IH _ _ Hmore) as (Hsorted' & Hin' & Hbelow').
  assert (Hlast : In last table)
    by (apply Hin; rewrite Hrec; apply in_or_app; right; now left).
  assert (Hvalid : valid_time (CreatedAt last))
    by (rewrite Forall_forall in times_valid; now apply times_valid).
  (* the next call decoded the token *)
  assert (Hdec : exists ty id t,
            decodeContinuationToken (tokenOf last) = Ok (ty, id, t)).
  { destruct fuel as [ | fuel' ]; [ discriminate | ].
    cbn [traverse] in Hmore.
    destruct (GetPaginated_cases (tableDB table) (tokenOf last) pageSize)
      as [ (e & _ & _ & Herr) | (q & [ Hempty | [[[ty id] t] Hp] ] & _) ].
    - rewrite Herr in Hmore. discriminate.
    - now apply encodeContinuationToken_nonempty in Hempty.
    - now exists ty, id, t. }
  destruct Hdec as (ty & id & t & Hdec).
  assert (Hafter : forall r, In r more -> before last r).
  { intros r Hr.
    pose proof (Hbelow' ty id t (encodeContinuationToken_nonempty _ _ _) Hdec r Hr)
      as Hlt.
    destruct (cursor_at_or_below last ty id t Hvalid Hdec) as [ Heq | Hlow ].
    - unfold before. now rewrite <- Heq.
    - unfold before. now apply (st_trans _ (t, ty, id)). }
  assert (Hfront : forall x, In x (Records page) -> x = last \/ before x last).
  { intros x Hx. rewrite Hrec in Hx, Hsorted.
    apply in_app_or in Hx. destruct Hx as [ Hx | [ <- | [] ] ]; [ right | now left ].
    destruct (sorted_app_inv _ _ Hsorted) as (_ & _ & H12).
    apply H12; [ assumption | now left ]. }
  split; [ | split ].
  - apply sorted_app; [ assumption | assumption | ].
    intros x y Hx Hy. destruct (Hfront x Hx) as [ -> | Hxl ]; [ now apply Hafter | ].
    apply (before_trans x last y); [ assumption | now apply Hafter ].
  - intros r Hr. apply in_app_or in Hr. destruct Hr; auto.
  - intros ty0 id0 t0 Hne Hdec0 r Hr. apply in_app_or in Hr.
    destruct Hr as [ Hr | Hr ]; [ now apply (Hbelow ty0 id0 t0) | ].
    apply (st_trans _ (keyOf last)); [ now apply Hafter | ].
    apply (Hbelow ty0 id0 t0); [ assumption | assumption | ].
    rewrite Hrec. apply in_or_app. right. now left.
Qed.

End Safety.


(** Property X8: over a table with distinct 3-tuples and creation times
    within the range of Go's Unix time, whatever the page size and whatever
    the sub-second parts, a traversal from the empty token that ends
    without an error returns rows of the table in strictly descending
    order of the 3-tuple: no row is returned twice and none out of order,
    also when rows are left out. *)
Theorem traversal_never_repeats (table : list Record_) (pageSize : Z)
  (fuel : nat) (rows : list Record_) :
  NoDup (map keyOf table) ->
  Forall (fun r => valid_time (CreatedAt r)) table ->
  traverse fuel (tableDB table) [] pageSize = Some rows ->
  StronglySorted before rows /\ NoDup rows /\ (forall r, In r rows -> In r table).
Proof.
  intros Hnd Hvalid Htrav.
  destruct (traverse_descending table pageSize Hnd Hvalid fuel [] rows Htrav)
    as (Hsorted & Hin & _).
  split; [ assumption | split; [ now apply sorted_NoDup | assumption ] ].
Qed.

Lemma traversal_never_repeats_witness :
  StronglySorted before [row "a" "t" 10 500000000]
  /\ NoDup [row "a" "t" 10 500000000]
  /\ (forall r, In r [row "a" "t" 10 500000000] -> In r subsecondRows).
Proof.
  assert (H1 : NoDup (map keyOf subsecondRows)).
  { repeat constructor; cbn; intuition discriminate. }
  assert (H2 : Forall (fun r => valid_time (CreatedAt r)) subsecondRows).
  { repeat constructor; cbn; unfold minInt64, maxInt64; lia. }
  assert (H3 : traverse 3 (tableDB subsecondRows) [] 1
               = Some [row "a" "t" 10 500000000]) by (vm_compute; reflexivity).
  exact (traversal_never_repeats subsecondRows 1 3 _ H1 H2 H3).
Defined.


(** ** The handlers *)

Lemma Atoi_literal (s : gostring) (ps v : Z) :
  Atoi s = Ok ps -> Strconv.IntLiteral s v -> in_int64 v -> v = ps.
Proof.
  unfold Atoi. intros Hps Hlit Hv.
  assert (H : Strconv.ParseInt s = Ok v)
    by (apply StrconvFacts.ParseInt_Ok_iff; now split).
  congruence.
Qed.

(** Property X9: the page size [GetRecordsPaginated] hands to the
    repository is always between 1 and 100.  It is the smaller of v and 100
    when the [page_size] parameter is a base-10 literal of a positive
    64-bit integer v, and 5 in every other case: no parameter, no number,
    zero or less, or a number beyond 64 bits. *)
Theorem page_size_clamped (pageSizeStr : gostring) :
  1 <= requestedPageSize pageSizeStr <= 100
  /\ (forall v, Strconv.IntLiteral pageSizeStr v -> in_int64 v -> 0 < v ->
                requestedPageSize pageSizeStr = Z.min v 100)
  /\ ((forall v, Strconv.IntLiteral pageSizeStr v -> in_int64 v -> v <= 0) ->
      requestedPageSize pageSizeStr = 5).
Proof.
  unfold requestedPageSize.
  destruct pageSizeStr as [ | c s ].
  - split; [ lia | split; [ | reflexivity ] ].
    intros v Hlit. inversion Hlit; congruence.
  - destruct (Atoi (c :: s)) as [ ps | e ] eqn:Hatoi.
    + pose proof Hatoi as Hlit. unfold Atoi in Hlit.
      apply StrconvFacts.ParseInt_Ok_iff in Hlit. destruct Hlit as [Hlit Hin].
      destruct (Z.gtb_spec ps 0) as [ Hpos | Hneg ].
      * destruct (Z.gtb_spec ps 100); (split; [ lia | split ]).
        -- intros v Hv Hv64 _. rewrite (Atoi_literal _ _ _ Hatoi Hv Hv64). lia.
        -- intros Hno. specialize (Hno ps Hlit Hin). lia.
        -- intros v Hv Hv64 _. rewrite (Atoi_literal _ _ _ Hatoi Hv Hv64). lia.
        -- intros Hno. specialize (Hno ps Hlit Hin). lia.
      * split; [ lia | split; [ | reflexivity ] ].
        intros v Hv Hv64 Hvpos. rewrite (Atoi_literal _ _ _ Hatoi Hv Hv64) in Hvpos. lia.
    + split; [ lia | split; [ | reflexivity ] ].
      intros v Hv Hv64 _. exfalso.
      assert (H : Strconv.ParseInt (c :: s) = Ok v)
        by (apply StrconvFacts.ParseInt_Ok_iff; now split).
      unfold Atoi in Hatoi. congruence.
Qed.

Example page_size_samples :
  requestedPageSize (str "10") = 10
  /\ requestedPageSize (str "150") = 100
  /\ requestedPageSize (str "invalid") = 5
  /\ requestedPageSize (str "0") = 5
  /\ requestedPageSize (str "-7") = 5
  /\ requestedPageSize (str "") = 5
  /\ requestedPageSize (str "+42") = 42
  /\ requestedPageSize (str "99999999999999999999") = 5.
Proof. repeat split; reflexivity. Qed.

Lemma requestedPageSize_range (pageSizeStr : gostring) :
  1 <= requestedPageSize pageSizeStr <= 100.
Proof.
  unfold requestedPageSize. destruct pageSizeStr as [ | c s ]; [ lia | ].
  destruct (Atoi (c :: s)) as [ ps | e ]; [ | lia ].
  destruct (Z.gtb_spec ps 0); [ | lia ].
  destruct (Z.gtb_spec ps 100); lia.
Qed.

Lemma requested_limit (pageSizeStr : gostring) :
  normalized (requestedPageSize pageSizeStr) = requestedPageSize pageSizeStr
  /\ int64 (normalized (requestedPageSize pageSizeStr) + 1)
     = requestedPageSize pageSizeStr + 1.
Proof.
  pose proof (requestedPageSize_range pageSizeStr) as Hr.
  assert (Hn : normalized (requestedPageSize pageSizeStr) = requestedPageSize pageSizeStr).
  { unfold normalized. destruct (Z.leb_spec (requestedPageSize pageSizeStr) 0); lia. }
  split; [ exact Hn | ]. rewrite Hn.
  apply int64_id. unfold in_int64, minInt64, maxInt64. lia.
Qed.

Lemma pageOf_length (records : list Record_) (N : Z) :
  0 < N -> Z.of_nat (length (Records (pageOf records N))) <= N.
Proof.
  intros HN. unfold pageOf.
  destruct (Z.gtb_spec (Z.of_nat (length records)) N); cbn [Records];
    [ rewrite length_firstn | ]; lia.
Qed.

(** Property X10: behind [GetRecordsPaginated] the repository is never
    asked for its default page size and [pageSize + 1] never wraps:
    whatever the [page_size] parameter, the token and the store, every
    query sent has LIMIT equal to the page size plus one, between 2 and
    101, and a successful result holds at most that page size, hence at
    most 100 records. *)
Theorem paginated_request_limits (db : DB) (token pageSizeStr : gostring) :
  let pageSize := requestedPageSize pageSizeStr in
  (forall q, In q (fst (GetPaginated db token pageSize)) ->
             limitOf q = pageSize + 1 /\ 2 <= limitOf q <= 101)
  /\ (forall page, snd (GetPaginated db token pageSize) = Ok page ->
                   Z.of_nat (length (Records page)) <= pageSize <= 100).
Proof.
  intros pageSize. subst pageSize.
  pose proof (requestedPageSize_range pageSizeStr) as Hr.
  destruct (requested_limit pageSizeStr) as [Hn Hl].
  split.
  - intros q Hq.
    destruct (GetPaginated db token (requestedPageSize pageSizeStr)) as [qs res] eqn:Hcall.
    cbn [fst] in Hq.
    assert (Hlim : limitOf q = requestedPageSize pageSizeStr + 1).
    { unfold GetPaginated in Hcall. fold (normalized (requestedPageSize pageSizeStr)) in Hcall.
      rewrite Hl in Hcall.
      destruct token as [ | c token ].
      - destruct (db _); injection Hcall as <- _; destruct Hq as [ <- | [] ]; reflexivity.
      - destruct (decodeContinuationToken (c :: token)) as [ [[ty id] t] | e ].
        + destruct (db _); injection Hcall as <- _; destruct Hq as [ <- | [] ]; reflexivity.
        + injection Hcall as <- _. destruct Hq. }
    split; [ exact Hlim | lia ].
  - intros page Hpage.
    destruct (GetPaginated db token (requestedPageSize pageSizeStr)) as [qs res] eqn:Hcall.
    cbn [snd] in Hpage. subst res.
    destruct (GetPaginated_Ok _ _ _ _ _ Hcall) as (q & records & _ & _ & _ & ->).
    rewrite Hn. split; [ apply pageOf_length; lia | lia ].
Qed.




Section ServiceFacts.

Variable column : Time -> Time.
Variable clock : nat -> Time.
Variable errorText : Error -> gostring.


End ServiceFacts.


Lemma sameKey_spec (ty id : gostring) (rows : list Record_) :
  existsb (sameKey ty id) rows = false
  <-> forall r, In r rows -> ~ (ResourceType r = ty /\ ResourceID r = id).
Proof.
  split.
  - intros Hex r Hr [Hty Hid].
    assert (Htrue : existsb (sameKey ty id) rows = true).
    { apply existsb_exists. exists r. split; [ exact Hr | ].
      unfold sameKey. apply andb_true_iff.
      split; apply str_eqb_spec; congruence. }
    congruence.
  - intros Hnone. apply not_true_iff_false. intros Hex.
    apply existsb_exists in Hex. destruct Hex as (r & Hr & Hkey).
    unfold sameKey in Hkey. apply andb_true_iff in Hkey.
    destruct Hkey as [Hty Hid]. apply str_eqb_spec in Hty, Hid.
    apply (Hnone r Hr). split; congruence.
Qed.

Section CreateFacts.

Variable column : Time -> Time.
Variable clock : nat -> Time.


End CreateFacts.


(** ** The database the repository produces *)

Lemma CreateTable_store (column : Time -> Time) (s : Store) :
  CreateTable (storeExec column) s = (None, Some []).
Proof. reflexivity. Qed.

Lemma orderByCreatedDesc_nil : orderByCreatedDesc [] = [].
Proof. reflexivity. Qed.



Lemma produced_rows (column : Time -> Time) (s : Store) :
  produced column s -> exists rows, s = Some rows /\ producedRows column rows.
Proof.
  induction 1 as [ s | s now id ty ctx Hs (rows & -> & Hnd & Hrows) ].
  - rewrite CreateTable_store. exists []. split; [ reflexivity | ].
    split; [ constructor | intros r [] ].
  - unfold Insert, storeExec.
    destruct (existsb (sameKey ty id) rows) eqn:Hex; cbn [snd].
    + exists rows. split; [ reflexivity | split; assumption ].
    + exists (rows ++ [mkRecord id ty ctx (column now) (column now)]).
      split; [ reflexivity | split ].
      * rewrite map_app. cbn [map ResourceType ResourceID].
        apply NoDup_app.
        -- exact Hnd.
        -- repeat constructor. intros [].
        -- intros k Hk [ <- | [] ].
           apply in_map_iff in Hk. destruct Hk as (r & Hr & Hin).
           apply (proj1 (sameKey_spec ty id rows) Hex r Hin).
           injection Hr as -> ->. now split.
      * intros r Hr. apply in_app_or in Hr.
        destruct Hr as [ Hr | [ <- | [] ] ]; [ now apply Hrows | ].
        cbn. split; [ reflexivity | now exists now ].
Qed.

Lemma keys_of_primary_keys (rows : list Record_) :
  NoDup (map (fun r => (ResourceType r, ResourceID r)) rows) ->
  NoDup (map keyOf rows).
Proof.
  induction rows as [ | r rows IH ]; cbn [map]; intros Hnd; [ constructor | ].
  inversion Hnd as [ | k ks Hnotin Hnd' ]; subst.
  constructor; [ | now apply IH ].
  intros Hin. apply Hnotin.
  apply in_map_iff in Hin. destruct Hin as (x & Hx & Hin).
  apply in_map_iff. exists x. split; [ | exact Hin ].
  unfold keyOf in Hx. now injection Hx as _ -> ->.
Qed.

(** Property X14: every state of the database that [CreateTable] followed
    by any number of [Insert]s produces, failed ones included, has the
    table, with pairwise distinct (resource_type, resource_id), hence
    pairwise distinct 3-tuples, and in every row [created_at] equal to
    [updated_at], a value of the timestamp column. *)
Theorem produced_database_keys (column : Time -> Time) (s : Store) :
  produced column s ->
  exists rows,
    s = Some rows
    /\ NoDup (map (fun r => (ResourceType r, ResourceID r)) rows)
    /\ NoDup (map keyOf rows)
    /\ forall r, In r rows ->
                 CreatedAt r = UpdatedAt r /\ exists t, CreatedAt r = column t.
Proof.
  intros Hs. destruct (produced_rows column s Hs) as (rows & -> & Hnd & Hrows).
  exists rows. split; [ reflexivity | split; [ exact Hnd | split ] ].
  - now apply keys_of_primary_keys.
  - exact Hrows.
Qed.


Lemma produced_database_keys_witness :
  exists rows,
    snd (Insert (storeExec secondsColumn) (mkTime 20 500) (str "a") (str "t") None
           (snd (Insert (storeExec secondsColumn) (mkTime 10 0) (str "a") (str "t") None
                   (snd (CreateTable (storeExec secondsColumn) None)))))
    = Some rows
    /\ NoDup (map (fun r => (ResourceType r, ResourceID r)) rows)
    /\ NoDup (map keyOf rows)
    /\ forall r, In r rows ->
                 CreatedAt r = UpdatedAt r /\ exists t, CreatedAt r = secondsColumn t.
Proof.
  exact (produced_database_keys secondsColumn _
           (produced_insert secondsColumn _ (mkTime 20 500) (str "a") (str "t") None
              (produced_insert secondsColumn _ (mkTime 10 0) (str "a") (str "t") None
                 (produced_create secondsColumn None)))).
Defined.

(** Traversal of a produced database. *)
Lemma produced_traversal (column : Time -> Time) (s : Store)
  (rows : list Record_) (pageSize : Z) (fuel : nat) :
  produced column s ->
  (forall t, valid_time (column t) /\ whole_second (column t)) ->
  s = Some rows ->
  (forall r, In r rows -> ~ In pipe (ResourceType r) /\ ~ In pipe (ResourceID r)) ->
  0 < pageSize < maxInt64 ->
  (length rows < fuel)%nat ->
  exists out,
    traverse fuel (storeDB s) [] pageSize = Some out
    /\ Permutation rows out /\ NoDup out /\ StronglySorted before out.
Proof.
  intros Hs Hcol -> Hkeys [Hpos Hbound] Hfuel.
  destruct (produced_rows column _ Hs) as (rows' & Heq & Hnd & Hrows).
  injection Heq as <-.
  assert (Hunique : NoDup (map keyOf rows)) by now apply keys_of_primary_keys.
  assert (Hsafe : Forall cursorSafe rows).
  { rewrite Forall_forall. intros r Hr.
    destruct (Hkeys r Hr) as [Hty Hid]. destruct (Hrows r Hr) as [_ [t Ht]].
    destruct (Hcol t) as [Hvalid Hwhole]. unfold cursorSafe. rewrite Ht.
    split; [ exact Hty | split; [ exact Hid | split; assumption ] ]. }
  exists (orderByDesc rows). cbn [storeDB].
  split; [ now apply traverse_table | split; [ apply orderByDesc_Permutation | split ] ].
  - apply sorted_NoDup. now apply orderByDesc_sorted.
  - now apply orderByDesc_sorted.
Qed.

(** Property X15: when the timestamp column holds whole seconds in range
    and no row has a [|] in its resource type or resource id, the
    traversal of a database produced by [CreateTable] and [Insert]s, from
    the empty token with a positive page size below the largest [int],
    returns every row of the table exactly once, in descending order of the
    3-tuple. *)
Theorem produced_database_traversal (column : Time -> Time) (s : Store)
  (rows : list Record_) (pageSize : Z) (fuel : nat) :
  produced column s ->
  (forall t, valid_time (column t) /\ whole_second (column t)) ->
  s = Some rows ->
  (forall r, In r rows -> ~ In pipe (ResourceType r) /\ ~ In pipe (ResourceID r)) ->
  0 < pageSize < maxInt64 ->
  (length rows < fuel)%nat ->
  exists out,
    traverse fuel (storeDB s) [] pageSize = Some out
    /\ Permutation rows out /\ NoDup out /\ StronglySorted before out.
Proof. apply produced_traversal. Qed.

Lemma secondsColumn_whole (t : Time) :
  valid_time (secondsColumn t) /\ whole_second (secondsColumn t).
Proof.
  unfold secondsColumn, valid_time, whole_second. cbn [sec nsec].
  split; [ split; [ apply int64_range | lia ] | reflexivity ].
Qed.

Lemma produced_database_traversal_witness :
  exists out,
    traverse 3
      (storeDB
         (Some [mkRecord (str "a") (str "t") None (mkTime 10 0) (mkTime 10 0);
                mkRecord (str "b") (str "t") None (mkTime 10 0) (mkTime 10 0)]))
      [] 1
    = Some out
    /\ Permutation
         [mkRecord (str "a") (str "t") None (mkTime 10 0) (mkTime 10 0);
          mkRecord (str "b") (str "t") None (mkTime 10 0) (mkTime 10 0)] out
    /\ NoDup out /\ StronglySorted before out.
Proof.
  assert (H1 : produced secondsColumn
                 (Some [mkRecord (str "a") (str "t") None (mkTime 10 0) (mkTime 10 0);
                        mkRecord (str "b") (str "t") None (mkTime 10 0) (mkTime 10 0)])).
  { exact (produced_insert secondsColumn _ (mkTime 10 100000000) (str "b") (str "t") None
             (produced_insert secondsColumn _ (mkTime 10 500000000) (str "a") (str "t") None
                (produced_create secondsColumn None))). }
  assert (H2 : forall r,
             In r [mkRecord (str "a") (str "t") None (mkTime 10 0) (mkTime 10 0);
                   mkRecord (str "b") (str "t") None (mkTime 10 0) (mkTime 10 0)] ->
             ~ In pipe (ResourceType r) /\ ~ In pipe (ResourceID r)).
  { intros r [ <- | [ <- | [] ] ]; cbn; intuition discriminate. }
  assert (H3 : 0 < 1 < maxInt64) by (unfold maxInt64; lia).
  assert (H4 : (length [mkRecord (str "a") (str "t") None (mkTime 10 0) (mkTime 10 0);
                        mkRecord (str "b") (str "t") None (mkTime 10 0) (mkTime 10 0)]
                < 3)%nat) by (cbn; lia).
  exact (produced_database_traversal secondsColumn _ _ 1 3 H1 secondsColumn_whole
           eq_refl H2 H3 H4).
Defined.


(** ** [GetAll] *)

Lemma insertByCreated_Permutation (r : Record_) (l : list Record_) :
  Permutation (r :: l) (insertByCreated r l).
Proof.
  induction l as [ | x l IH ]; cbn [insertByCreated]; [ reflexivity | ].
  destruct (time_ltb (CreatedAt x) (CreatedAt r)); [ reflexivity | ].
  rewrite perm_swap. now apply perm_skip.
Qed.

Lemma fold_insertByCreated_Permutation (l acc : list Record_) :
  Permutation (acc ++ l) (fold_left (fun acc r => insertByCreated r acc) l acc).
Proof.
  revert acc. induction l as [ | r l IH ]; intros acc; cbn [fold_left].
  - now rewrite app_nil_r.
  - rewrite <- IH. rewrite <- insertByCreated_Permutation.
    cbn [app]. symmetry. apply Permutation_middle.
Qed.

Lemma orderByCreatedDesc_Permutation (l : list Record_) :
  Permutation l (orderByCreatedDesc l).
Proof. apply (fold_insertByCreated_Permutation l []). Qed.








(** ** Creating and listing *)

Section ListingFacts.

Variable column : Time -> Time.
Variable clock : nat -> Time.

Lemma created_store (c : Params) (w : World) :
  status (fst (CreateRecordFromQuery (repository column clock) c w)) = StatusCreated ->
  exists rows,
    store w = Some rows
    /\ store (snd (CreateRecordFromQuery (repository column clock) c w))
       = Some (rows ++ [mkRecord (c (str "resource_id")) (c (str "resource_type"))
                          (match c (str "context") with
                           | [] => None
                           | x :: s => Some (x :: s)
                           end)
                          (column (clock (tick w))) (column (clock (tick w)))]).
Proof.
  unfold CreateRecordFromQuery.
  destruct (c (str "resource_id")) as [ | i0 id' ] eqn:Hid; [ discriminate | ].
  destruct (c (str "resource_type")) as [ | t0 ty' ] eqn:Hty; [ discriminate | ].
  unfold repository. cbn [repoInsert]. unfold Insert, liftExec, storeExec.
  destruct (store w) as [ rows | ]; [ | discriminate ].
  destruct (existsb (sameKey (t0 :: ty') (i0 :: id')) rows);
    cbn [fst snd status store option_map]; [ discriminate | ].
  intros _. exists rows. split; [ reflexivity | ].
  now destruct (c (str "context")).
Qed.

(** Property X17: a record that [CreateRecordFromQuery] created (answer
    201) is listed by [GetRecords] right after: the answer is 200 and its
    records are the rows the table had before together with the new one,
    with the id, the type and the context of the request. *)
Theorem created_record_is_listed (c : Params) (w : World) :
  let created := CreateRecordFromQuery (repository column clock) c w in
  status (fst created) = StatusCreated ->
  exists rows records new,
    store w = Some rows
    /\ fst (GetRecords (repository column clock) (snd created))
       = mkResponse StatusOK (HRecords records)
    /\ Permutation (rows ++ [new]) records
    /\ ResourceID new = c (str "resource_id")
    /\ ResourceType new = c (str "resource_type")
    /\ Context new = match c (str "context") with
                     | [] => None
                     | x :: s => Some (x :: s)
                     end.
Proof.
  intros created Hstatus. subst created.
  destruct (created_store c w Hstatus) as (rows & Hstore & Hafter).
  eexists rows, _, _. split; [ exact Hstore | ].
  unfold GetRecords, repository at 1. cbn [repoGetAll].
  unfold GetAll, storeQueryAll. rewrite Hafter. cbn [fst].
  split; [ reflexivity | ].
  split; [ apply orderByCreatedDesc_Permutation | ].
  now repeat split.
Qed.

End ListingFacts.

Lemma created_record_is_listed_witness :
  exists rows records new,
    store (mkWorld (Some subsecondRows) 0) = Some rows
    /\ fst (GetRecords (repository secondsColumn sampleClock)
              (snd (CreateRecordFromQuery (repository secondsColumn sampleClock)
                      sampleParams (mkWorld (Some subsecondRows) 0))))
       = mkResponse StatusOK (HRecords records)
    /\ Permutation (rows ++ [new]) records
    /\ ResourceID new = sampleParams (str "resource_id")
    /\ ResourceType new = sampleParams (str "resource_type")
    /\ Context new = match sampleParams (str "context") with
                     | [] => None
                     | x :: s => Some (x :: s)
                     end.
Proof.
  exact (created_record_is_listed secondsColumn sampleClock sampleParams
           (mkWorld (Some subsecondRows) 0) eq_refl).
Defined.


(** ** The sample data *)

Lemma existsb_sameKey (ty id : gostring) (rows : list Record_) :
  existsb (fun k => str_eqb ty (fst k) && str_eqb id (snd k))
          (map (fun r => (ResourceType r, ResourceID r)) rows)
  = existsb (sameKey ty id) rows.
Proof.
  induction rows as [ | r rows IH ]; cbn [map existsb]; [ reflexivity | ].
  now rewrite IH.
Qed.

Section MainFacts.

Variable column : Time -> Time.
Variable clock : nat -> Time.
Context {L : Type}.

Lemma insertSamples_cons (record : SampleRecord) (rest : list SampleRecord) (w : World) :
  insertSamples column clock (record :: rest) w
  = insertSamples column clock rest
      (snd (repoInsert (repository column clock)
              (SampleResourceID record) (SampleResourceType record)
              (SampleContext record) w)).
Proof. reflexivity. Qed.

Lemma repoInsert_world (id ty : gostring) (ctx : option gostring)
  (rows : list Record_) (t : nat) :
  snd (repoInsert (repository column clock) id ty ctx (mkWorld (Some rows) t))
  = if existsb (sameKey ty id) rows
    then mkWorld (Some rows) (S t)
    else mkWorld (Some (rows ++ [mkRecord id ty ctx (column (clock t)) (column (clock t))]))
                 (S t).
Proof.
  unfold repository. cbn [repoInsert store tick]. unfold Insert, liftExec, storeExec.
  now destruct (existsb (sameKey ty id) rows).
Qed.

(** What the loop of [populateSampleData] adds to a table. *)
Lemma insertSamples_rows (records : list SampleRecord) :
  forall rows t,
  exists new,
    insertSamples column clock records (mkWorld (Some rows) t)
    = mkWorld (Some (rows ++ new)) (t + length records)
    /\ map (fun r => (ResourceID r, ResourceType r, Context r)) new
       = map (fun s => (SampleResourceID s, SampleResourceType s, SampleContext s))
           (firstOccurrences (map (fun r => (ResourceType r, ResourceID r)) rows) records)
    /\ forall r, In r new -> CreatedAt r = UpdatedAt r.
Proof.
  induction records as [ | record rest IH ]; intros rows t.
  - exists []. cbn. rewrite app_nil_r, Nat.add_0_r. now repeat split.
  - rewrite insertSamples_cons, repoInsert_world.
    cbn [firstOccurrences fst snd]. rewrite existsb_sameKey.
    destruct (existsb (sameKey (SampleResourceType record) (SampleResourceID record)) rows)
      eqn:Hex.
    + destruct (IH rows (S t)) as (new & Hrun & Hmap & Htimes).
      exists new. rewrite Hrun. cbn [length].
      split; [ f_equal; lia | now split ].
    + destruct (IH (rows ++ [mkRecord (SampleResourceID record) (SampleResourceType record)
                               (SampleContext record) (column (clock t)) (column (clock t))])
                  (S t)) as (new & Hrun & Hmap & Htimes).
      exists (mkRecord (SampleResourceID record) (SampleResourceType record)
                (SampleContext record) (column (clock t)) (column (clock t)) :: new).
      rewrite Hrun, <- app_assoc. cbn [app length].
      split; [ f_equal; lia | split ].
      * cbn [map ResourceID ResourceType Context]. f_equal.
        rewrite Hmap, map_app. reflexivity.
      * intros r [ <- | Hr ]; [ reflexivity | now apply Htimes ].
Qed.

(** Property X18: [populateSampleData] leaves a table that holds a row
    alone: it returns no error, reads neither the sample file nor the
    clock, and inserts nothing. *)
Theorem populate_skips_filled_table
  (loadSampleData : result L (list SampleRecord)) (w : World) (rows : list Record_) :
  store w = Some rows -> rows <> [] ->
  populateSampleData column clock loadSampleData w = (None, w).
Proof.
  intros Hstore Hne. unfold populateSampleData, repository. cbn [repoGetAll].
  unfold GetAll, storeQueryAll. rewrite Hstore.
  assert (Hlen : (0 < length (orderByCreatedDesc rows))%nat).
  { rewrite <- (Permutation_length (orderByCreatedDesc_Permutation rows)).
    destruct rows; [ congruence | cbn; lia ]. }
  apply Nat.ltb_lt in Hlen. now rewrite Hlen.
Qed.


End MainFacts.

Lemma populate_skips_filled_table_witness :
  populateSampleData secondsColumn sampleClock
    (Err (E := unit) (A := list SampleRecord) tt)
    (mkWorld (Some threeRows) 7)
  = (None, mkWorld (Some threeRows) 7).
Proof.
  assert (H : threeRows <> []) by discriminate.
  exact (populate_skips_filled_table secondsColumn sampleClock (Err tt)
           (mkWorld (Some threeRows) 7) threeRows eq_refl H).
Defined.


Lemma nth_Split_no_pipe (k : nat) (line : gostring) :
  ~ In pipe (nth k (Split line pipe) []).
Proof.
  destruct (nth_in_or_default k (Split line pipe) []) as [ Hin | -> ].
  - now apply (Split_fields_no_sep line).
  - intros [].
Qed.

Section SampleFileFacts.

Variable TrimSpace : gostring -> gostring.
Context {L : Type}.

Lemma scanLines_records (texts : list gostring) (record : SampleRecord) :
  In record (scanLines TrimSpace texts) ->
  ~ In pipe (SampleResourceID record)
  /\ ~ In pipe (SampleResourceType record)
  /\ SampleContext record <> Some []
  /\ forall context, SampleContext record = Some context -> ~ In pipe context.
Proof.
  induction texts as [ | text rest IH ]; cbn [scanLines]; [ intros [] | ].
  destruct (TrimSpace text) as [ | x line ]; [ exact IH | ].
  destruct (length (Split (x :: line) pipe) <? 2)%nat; [ exact IH | ].
  intros [ <- | Hin ]; [ | now apply IH ].
  cbn [SampleResourceID SampleResourceType SampleContext].
  split; [ apply nth_Split_no_pipe | split; [ apply nth_Split_no_pipe | ] ].
  destruct (3 <=? length (Split (x :: line) pipe))%nat;
    [ | split; [ discriminate | discriminate ] ].
  pose proof (nth_Split_no_pipe 2 (x :: line)) as Hno.
  destruct (nth 2 (Split (x :: line) pipe) []) as [ | y ctx ];
    split; try discriminate.
  intros context Hctx. injection Hctx as <-. exact Hno.
Qed.

(** Property X20: no sample record that [loadSampleData] returns has a
    [|] in its resource id, its resource type or its context, and none has
    an empty string as context: what follows a third [|] of a line is
    dropped. *)
Theorem loadSampleData_records (file : result L (list gostring * option L))
  (records : list SampleRecord) (record : SampleRecord) :
  loadSampleData TrimSpace file = Ok records -> In record records ->
  ~ In pipe (SampleResourceID record)
  /\ ~ In pipe (SampleResourceType record)
  /\ SampleContext record <> Some []
  /\ forall context, SampleContext record = Some context -> ~ In pipe context.
Proof.
  unfold loadSampleData.
  destruct file as [ [texts [ e | ]] | e ]; try discriminate.
  intros H. injection H as <-. apply scanLines_records.
Qed.

End SampleFileFacts.

Lemma loadSampleData_records_witness :
  ~ In pipe (str "user-1") /\ ~ In pipe (str "user")
  /\ Some (str "{}") <> Some []
  /\ forall context, Some (str "{}") = Some context -> ~ In pipe context.
Proof.
  assert (H1 : loadSampleData (L := unit) (fun s => s) (Ok (sampleLines, None))
               = Ok [mkSampleRecord (str "user-1") (str "user") (Some (str "{}"));
                     mkSampleRecord (str "doc-2") (str "document") None])
    by reflexivity.
  assert (H2 : In (mkSampleRecord (str "user-1") (str "user") (Some (str "{}")))
                 [mkSampleRecord (str "user-1") (str "user") (Some (str "{}"));
                  mkSampleRecord (str "doc-2") (str "document") None])
    by (now left).
  exact (loadSampleData_records (fun s => s) _ _ _ H1 H2).
Defined.


(** ** From startup to the last page *)

Lemma firstOccurrences_incl (records : list SampleRecord) :
  forall seen record, In record (firstOccurrences seen records) -> In record records.
Proof.
  induction records as [ | r rest IH ]; intros seen record; cbn [firstOccurrences];
    [ intros [] | ].
  destruct (existsb _ seen).
  - intros Hin. right. now apply (IH seen).
  - intros [ <- | Hin ]; [ now left | right; now apply (IH _ _ Hin) ].
Qed.

Section StartupFacts.

Variable column : Time -> Time.
Variable clock : nat -> Time.
Variable TrimSpace : gostring -> gostring.
Context {L : Type}.

Lemma insertSamples_produced (records : list SampleRecord) :
  forall w, produced column (store w) ->
            produced column (store (insertSamples column clock records w)).
Proof.
  induction records as [ | record rest IH ]; intros w Hw; [ exact Hw | ].
  rewrite insertSamples_cons. apply IH.
  unfold repository. cbn [repoInsert]. unfold liftExec. cbn [snd store].
  now apply produced_insert.
Qed.

(** Property X21: when the timestamp column holds whole seconds in range,
    the server [main] starts serves every row of its table through the
    paginated endpoint's repository call: whatever the sample file, the
    earlier content of the database and the readings of the clock, the
    traversal from the empty token, with a positive page size below the
    largest [int], returns every row exactly once in descending order of the
    3-tuple. *)
Theorem startup_then_traversal (file : result L (list gostring * option L))
  (w w' : World) (pageSize : Z) :
  (forall t, valid_time (column t) /\ whole_second (column t)) ->
  startup column clock (loadSampleData TrimSpace file) w = Some w' ->
  0 < pageSize < maxInt64 ->
  exists rows,
    store w' = Some rows
    /\ forall fuel, (length rows < fuel)%nat ->
       exists out,
         traverse fuel (storeDB (store w')) [] pageSize = Some out
         /\ Permutation rows out /\ NoDup out /\ StronglySorted before out.
Proof.
  intros Hcol Hstart Hsize.
  unfold startup, repository at 1 in Hstart. cbn [repoCreateTable] in Hstart.
  rewrite CreateTable_store in Hstart. unfold liftExec in Hstart.
  cbn [fst snd option_map] in Hstart.
  unfold populateSampleData, repository at 1 in Hstart. cbn [repoGetAll store] in Hstart.
  unfold GetAll, storeQueryAll in Hstart. rewrite orderByCreatedDesc_nil in Hstart.
  cbn [length Nat.ltb Nat.leb] in Hstart.
  destruct (loadSampleData TrimSpace file) as [ records | e ] eqn:Hload;
    [ | discriminate ].
  injection Hstart as <-.
  assert (Hscan : exists texts, records = scanLines TrimSpace texts).
  { unfold loadSampleData in Hload.
    destruct file as [ [texts [ e | ]] | e ]; try discriminate.
    injection Hload as <-. now exists texts. }
  destruct Hscan as [texts ->].
  destruct (insertSamples_rows column clock (scanLines TrimSpace texts) [] (tick w))
    as (rows & Hrun & Hmap & _).
  cbn [app] in Hrun.
  assert (Hprod : produced column
            (store (insertSamples column clock (scanLines TrimSpace texts)
                      (mkWorld (Some []) (tick w))))).
  { apply insertSamples_produced. cbn [store].
    exact (produced_create column None). }
  rewrite Hrun in Hprod |- *. cbn [store] in Hprod |- *.
  exists rows. split; [ reflexivity | ]. intros fuel Hfuel.
  apply (produced_traversal column (Some rows) rows pageSize fuel);
    try assumption; try reflexivity.
  intros r Hr.
  assert (Hin : In (ResourceID r, ResourceType r, Context r)
                  (map (fun s => (SampleResourceID s, SampleResourceType s, SampleContext s))
                     (firstOccurrences [] (scanLines TrimSpace texts)))).
  { cbn [map] in Hmap. rewrite <- Hmap.
    apply (in_map (fun r => (ResourceID r, ResourceType r, Context r))). exact Hr. }
  apply in_map_iff in Hin. destruct Hin as (sample & Heq & Hsample).
  apply firstOccurrences_incl in Hsample.
  destruct (scanLines_records TrimSpace texts sample Hsample) as (Hid & Hty & _).
  injection Heq as Hid' Hty' _. rewrite <- Hid', <- Hty'. now split.
Qed.

End StartupFacts.

Lemma startup_then_traversal_witness :
  exists rows,
    store (mkWorld (Some [mkRecord (str "user-1") (str "user") (Some (str "{}"))
                            (mkTime 1234567890 0) (mkTime 1234567890 0);
                          mkRecord (str "doc-2") (str "document") None
                            (mkTime 1234567891 0) (mkTime 1234567891 0)]) 2)
    = Some rows
    /\ forall fuel, (length rows < fuel)%nat ->
       exists out,
         traverse fuel
           (storeDB (Some [mkRecord (str "user-1") (str "user") (Some (str "{}"))
                             (mkTime 1234567890 0) (mkTime 1234567890 0);
                           mkRecord (str "doc-2") (str "document") None
                             (mkTime 1234567891 0) (mkTime 1234567891 0)]))
           [] 1
         = Some out
         /\ Permutation rows out /\ NoDup out /\ StronglySorted before out.
Proof.
  assert (H1 : startup secondsColumn sampleClock
                 (loadSampleData (L := unit) (fun s => s) (Ok (sampleLines, None)))
                 (mkWorld (Some threeRows) 0)
               = Some (mkWorld (Some [mkRecord (str "user-1") (str "user") (Some (str "{}"))
                                        (mkTime 1234567890 0) (mkTime 1234567890 0);
                                      mkRecord (str "doc-2") (str "document") None
                                        (mkTime 1234567891 0) (mkTime 1234567891 0)]) 2))
    by (vm_compute; reflexivity).
  assert (H2 : 0 < 1 < maxInt64) by (unfold maxInt64; lia).
  exact (startup_then_traversal secondsColumn sampleClock (fun s => s) _ _ _ 1
           secondsColumn_whole H1 H2).
Defined.


(** ** Pages and the rows above the cursor *)

Lemma keys_NoDup_rows (l : list Record_) : NoDup (map keyOf l) -> NoDup l.
Proof. apply NoDup_map_inv. Qed.

(** Tables with the same rows below a position answer a seek from that
    position alike. *)
Lemma seek_same_rows (t1 t2 : list Record_) (t : Time) (ty id : gostring) :
  NoDup (map keyOf t1) -> NoDup (map keyOf t2) ->
  (forall r, key_lt (keyOf r) (t, ty, id) -> (In r t1 <-> In r t2)) ->
  orderByDesc (filter (whereSeek t t ty t ty id) t1)
  = orderByDesc (filter (whereSeek t t ty t ty id) t2).
Proof.
  intros H1 H2 Hsame.
  apply sorted_unique.
  - apply orderByDesc_sorted. now apply filter_NoDup_keys.
  - apply orderByDesc_sorted. now apply filter_NoDup_keys.
  - rewrite <- !orderByDesc_Permutation.
    apply NoDup_Permutation.
    + apply keys_NoDup_rows. now apply filter_NoDup_keys.
    + apply keys_NoDup_rows. now apply filter_NoDup_keys.
    + intros r. rewrite !filter_In, whereSeek_spec.
      split; intros [Hin Hlt]; (split; [ now apply (Hsame r Hlt) | exact Hlt ]).
Qed.

(** Property X22: a page asked for with a token depends on the rows below
    the token's position only.  Two tables, each with distinct 3-tuples,
    that hold the same rows below that position give the same call of
    [GetPaginated], query and result: rows inserted, deleted or changed at
    or above the cursor between two calls do not shift the next page. *)
Theorem page_ignores_rows_above_cursor (t1 t2 : list Record_)
  (token : gostring) (pageSize : Z) (ty id : gostring) (t : Time) :
  NoDup (map keyOf t1) -> NoDup (map keyOf t2) ->
  token <> [] -> decodeContinuationToken token = Ok (ty, id, t) ->
  (forall r, key_lt (keyOf r) (t, ty, id) -> (In r t1 <-> In r t2)) ->
  GetPaginated (tableDB t1) token pageSize = GetPaginated (tableDB t2) token pageSize.
Proof.
  intros H1 H2 Hne Hdec Hsame. unfold GetPaginated.
  destruct token as [ | c token ]; [ congruence | ].
  rewrite Hdec. cbn [tableDB].
  now rewrite (seek_same_rows t1 t2 t ty id H1 H2 Hsame).
Qed.

Lemma page_ignores_rows_above_cursor_witness :
  GetPaginated (tableDB threeRows) (tokenOf (row "user-1" "user" 1234567890 0)) 2
  = GetPaginated (tableDB [row "doc-2" "document" 1234567890 0;
                           row "user-9" "user" 1234567899 0])
      (tokenOf (row "user-1" "user" 1234567890 0)) 2.
Proof.
  assert (H1 : NoDup (map keyOf threeRows)).
  { repeat constructor; cbn; intuition discriminate. }
  assert (H2 : NoDup (map keyOf [row "doc-2" "document" 1234567890 0;
                                 row "user-9" "user" 1234567899 0])).
  { repeat constructor; cbn; intuition discriminate. }
  assert (H3 : tokenOf (row "user-1" "user" 1234567890 0) <> [])
    by apply encodeContinuationToken_nonempty.
  assert (H4 : decodeContinuationToken (tokenOf (row "user-1" "user" 1234567890 0))
               = Ok (str "user", str "user-1", mkTime 1234567890 0)) by reflexivity.
  assert (H5 : forall r,
             key_lt (keyOf r) (mkTime 1234567890 0, str "user", str "user-1") ->
             (In r threeRows
              <-> In r [row "doc-2" "document" 1234567890 0;
                        row "user-9" "user" 1234567899 0])).
  { intros r Hlt. split.
    - intros [ <- | [ <- | [ <- | [] ] ] ].
      + now apply (st_irrefl (keyOf (row "user-1" "user" 1234567890 0))) in Hlt.
      + now left.
      + exfalso. cbn in Hlt. unfold time_lt in Hlt. cbn in Hlt.
        destruct Hlt as [ Hlt | [Heq _] ]; [ lia | discriminate ].
    - intros [ <- | [ <- | [] ] ].
      + right. now left.
      + exfalso. cbn in Hlt. unfold time_lt in Hlt. cbn in Hlt.
        destruct Hlt as [ Hlt | [Heq _] ]; [ lia | discriminate ]. }
  exact (page_ignores_rows_above_cursor threeRows _ _ 2 _ _ _ H1 H2 H3 H4 H5).
Defined.

(** ** Following the endpoint *)

Lemma pageParams_token (token pageSizeStr : gostring) :
  pageParams token pageSizeStr (str "continuation_token") = token.
Proof. reflexivity. Qed.

Lemma pageParams_size (token pageSizeStr : gostring) :
  pageParams token pageSizeStr (str "page_size") = pageSizeStr.
Proof. reflexivity. Qed.

Section ClientFacts.

Variable column : Time -> Time.
Variable clock : nat -> Time.
Variable errorText : Error -> gostring.

Lemma GetRecordsPaginated_answer (c : Params) (w : World) :
  GetRecordsPaginated (repository column clock) errorText c w
  = (match snd (GetPaginated (storeDB (store w)) (c (str "continuation_token"))
                  (requestedPageSize (c (str "page_size")))) with
     | Ok result => mkResponse StatusOK (JResult result)
     | Err err => mkResponse StatusBadRequest (HError (errorText err))
     end, w).
Proof.
  unfold GetRecordsPaginated, repository. cbn [repoGetPaginated].
  now destruct (snd (GetPaginated _ _ _)).
Qed.

(** The client's loop is the traversal with the page size of the
    request. *)
Lemma followEndpoint_traverse (pageSizeStr : gostring) (w : World) (fuel : nat) :
  forall token,
    followEndpoint column clock errorText fuel pageSizeStr token w
    = traverse fuel (storeDB (store w)) token (requestedPageSize pageSizeStr).
Proof.
  induction fuel as [ | fuel IH ]; intros token; [ reflexivity | ].
  cbn [followEndpoint traverse].
  rewrite GetRecordsPaginated_answer, pageParams_token, pageParams_size.
  destruct (snd (GetPaginated (storeDB (store w)) token (requestedPageSize pageSizeStr)))
    as [ page | e ]; cbn [fst snd body status]; [ | reflexivity ].
  change (StatusOK =? StatusOK) with true. cbn iota.
  destruct (NextContinuationToken page) as [ next | ]; [ | reflexivity ].
  now rewrite IH.
Qed.

(** Property X23: a client that follows the tokens of
    [GET /records/paginated] with any [page_size] parameter, valid or not,
    receives every row of the table exactly once, in descending order of
    the 3-tuple, when the rows have distinct 3-tuples, delimiter-free keys
    and whole-second creation times. *)
Theorem endpoint_traversal (pageSizeStr : gostring) (w : World)
  (rows : list Record_) (fuel : nat) :
  store w = Some rows ->
  NoDup (map keyOf rows) -> Forall cursorSafe rows ->
  (length rows < fuel)%nat ->
  exists out,
    followEndpoint column clock errorText fuel pageSizeStr [] w = Some out
    /\ Permutation rows out /\ NoDup out /\ StronglySorted before out.
Proof.
  intros Hstore Hnd Hsafe Hfuel.
  pose proof (requestedPageSize_range pageSizeStr) as Hrange.
  exists (orderByDesc rows).
  rewrite followEndpoint_traverse, Hstore. cbn [storeDB].
  split; [ apply traverse_table; try assumption; unfold maxInt64; lia | ].
  split; [ apply orderByDesc_Permutation | split ].
  - apply sorted_NoDup. now apply orderByDesc_sorted.
  - now apply orderByDesc_sorted.
Qed.

End ClientFacts.

Lemma endpoint_traversal_witness :
  exists out,
    followEndpoint secondsColumn sampleClock (fun _ => str "error") 4
      (str "invalid") [] (mkWorld (Some threeRows) 0)
    = Some out
    /\ Permutation threeRows out /\ NoDup out /\ StronglySorted before out.
Proof.
  assert (H1 : NoDup (map keyOf threeRows)).
  { repeat constructor; cbn; intuition discriminate. }
  assert (H2 : Forall cursorSafe threeRows).
  { repeat constructor; cbn; try lia; try discriminate; intuition discriminate. }
  assert (H3 : (length threeRows < 4)%nat) by (cbn; lia).
  exact (endpoint_traversal secondsColumn sampleClock (fun _ => str "error")
           (str "invalid") (mkWorld (Some threeRows) 0) threeRows 4 eq_refl H1 H2 H3).
Defined.


(** ** Instances *)

Lemma page_size_clamped_witness :
  requestedPageSize (str "150") = Z.min 150 100.
Proof.
  assert (H1 : in_int64 150) by (unfold in_int64, minInt64, maxInt64; lia).
  assert (H2 : Strconv.IntLiteral (str "150") 150)
    by exact (StrconvFacts.fmtInt64_literal 150 H1).
  assert (H3 : 0 < 150) by lia.
  exact (proj1 (proj2 (page_size_clamped (str "150"))) 150 H2 H1 H3).
Defined.

Lemma paginated_request_limits_witness :
  limitOf (SelectFirstPage 101) = requestedPageSize (str "150") + 1
  /\ 2 <= limitOf (SelectFirstPage 101) <= 101.
Proof.
  assert (H : In (SelectFirstPage 101)
                (fst (GetPaginated (mockDB sixRows) [] (requestedPageSize (str "150")))))
    by (now left).
  exact (proj1 (paginated_request_limits (mockDB sixRows) [] (str "150")) _ H).
Defined.


